(** * Reelr chat service: presence registry, relay handlers and durable store

    A shallow embedding of the socket handlers of the chat service
    (the server module with [io.on("connection", ...)]) and of the two
    Mongoose models it uses, followed by the properties of the relay
    that the specification states.

    Modelling choices, all read off the source:
    - the presence registry [onlineUsers] is a JS [Map] from the user id
      (a string) to the socket id (a string): a [gmap string string];
    - a handler is an [async] function: it runs synchronously up to an
      [await], is suspended while the store call is in flight, and is
      resumed with the result or with the thrown error.  Handlers are
      therefore written once, as trees of effects ([Task]), and run
      either to completion ([run]) or step by step under a schedule that
      interleaves several pending handlers ([interleave]);
    - every store call may throw (lost connection, validation error, or
      the cast of an id that is not the string form of an object id): the
      environment [Env] decides, per call, whether it throws and with
      which message, and gives the clock reading used for the
      [timestamps: true] fields;
    - a store call also throws on its own account when Mongoose cannot
      carry it out: [populate] on a path whose [ref] names a model that
      this service never registers;
    - an inbound event may come without a payload: the listeners
      destructure their argument in the parameter list, before their
      [try], and that throws on [undefined] and on [null];
    - object ids are allocated from a counter held by the store;
    - [console.log] / [console.error] lines have no effect on the state
      the properties speak about and are left out. *)

From Stdlib Require Import ZArith.
From stdpp Require Import gmap strings list sorting.

Local Open Scope Z_scope.

(** ** Data model *)

Abbreviation user_id := string.
Abbreviation socket_id := string.
Abbreviation oid := nat.
(** The [message] of a thrown error. *)
Abbreviation exn := string.

(** [models/conversation.model.js] *)
Record Conversation := mkConversation {
  c_id : oid;
  participants : list user_id;
  lastMessage : option oid;
  c_createdAt : Z;
  c_updatedAt : Z
}.

(** [models/message.model.js] *)
Record Message := mkMessage {
  m_id : oid;
  conversationId : oid;
  sender : user_id;
  text : string;
  seen : bool;
  m_createdAt : Z;
  m_updatedAt : Z
}.

(** A document of the collection behind [ref: "User"], with the fields
    selected by [populate("participants", "username profileImage")].
    The collection belongs to another service: this one imports the
    models [Conversation] and [Message] and registers no model named
    [User], so it neither reads nor writes the collection. *)
Record User := mkUser {
  u_id : user_id;
  username : string;
  profileImage : string
}.

(** A conversation as the two [populate] calls of [get-conversations]
    are meant to return it. *)
Record PopulatedConversation := mkPopulated {
  pc_id : oid;
  pc_participants : list User;
  pc_lastMessage : option Message;
  pc_createdAt : Z;
  pc_updatedAt : Z
}.

Record Store := mkStore {
  users : list User;
  conversations : list Conversation;
  messages : list Message;
  next_oid : oid
}.

(** Outbound events with their payloads. *)
Inductive Event :=
| user_online (userId : user_id)
| user_offline (userId : user_id)
| message_sent (messageId conversation : oid) (timestamp : Z)
| receive_message (from : user_id) (message : string)
    (messageId conversation : oid) (timestamp : Z)
| message_error (error details : string)
| messages_loaded (msgs : list Message) (conversation : option oid)
| messages_error (error : string)
| conversations_loaded (convs : list PopulatedConversation)
| user_typing (userId : user_id)
| user_stop_typing (userId : user_id)
| online_statuses (statuses : gmap string bool).

(** Where an event is sent: [socket.emit], [io.to(id).emit], [io.emit]. *)
Inductive Target :=
| to_socket (s : socket_id)
| io_to (room : string)
| io_all.

Record Emission := mkEmission { target : Target; event : Event }.

(** The environment of the store calls: the [k]-th call made by the
    process throws [e] when [fails k = Some e], and otherwise runs at
    time [now k]. *)
Record Env := mkEnv {
  fails : nat → option exn;
  now : nat → Z
}.

Record World := mkWorld {
  db : Store;
  onlineUsers : gmap string string;
  rooms : list (string * socket_id);
  outbox : list Emission;
  tick : nat
}.

(** ** JavaScript truthiness of payload fields

    A field of an event payload is [None] when it is absent; the guards
    [!to], [!message], [if (recipientId)], [if (recipientSocketId)] also
    reject the empty string. *)
Definition truthy (v : option string) : option string :=
  match v with
  | Some (String a s) => Some (String a s)
  | _ => None
  end.

(** ** Store primitives (the Mongoose calls of the handlers) *)

(** The filter [{ participants: { $all: [u, r] } }]. *)
Definition all_of (u r : user_id) (c : Conversation) : Prop :=
  u ∈ participants c ∧ r ∈ participants c.

Global Instance all_of_dec u r c : Decision (all_of u r c) := and_dec _ _.

Definition findOne (u r : user_id) (s : Store) : option Conversation :=
  head (filter (all_of u r) (conversations s)).

Definition findById (id : oid) (s : Store) : option Conversation :=
  head (filter (λ c, c_id c = id) (conversations s)).

Definition create_conversation (ps : list user_id) (t : Z) (s : Store)
  : Conversation * Store :=
  let c := mkConversation (next_oid s) ps None t t in
  (c, mkStore (users s) (conversations s ++ [c]) (messages s) (S (next_oid s))).

Definition create_message (cid : oid) (from : user_id) (txt : string)
    (t : Z) (s : Store) : Message * Store :=
  let m := mkMessage (next_oid s) cid from txt false t t in
  (m, mkStore (users s) (conversations s) (messages s ++ [m]) (S (next_oid s))).

(** [conversation.save()] after [conversation.lastMessage = ...]: the
    modified path is written to the stored document with that [_id]. *)
Definition set_lastMessage (id : oid) (last : option oid) (t : Z)
    (d : Conversation) : Conversation :=
  if decide (c_id d = id)
  then mkConversation (c_id d) (participants d) last (c_createdAt d) t
  else d.

Definition save_conversation (c : Conversation) (t : Z) (s : Store) : Store :=
  mkStore (users s)
    (set_lastMessage (c_id c) (lastMessage c) t <$> conversations s)
    (messages s) (next_oid s).

(** Stable insertion sort on an integer key, ascending. *)
Fixpoint insert_by {A} (key : A → Z) (x : A) (l : list A) : list A :=
  match l with
  | [] => [x]
  | y :: l' => if (key x <=? key y)%Z then x :: l else y :: insert_by key x l'
  end.

Definition sort_by {A} (key : A → Z) (l : list A) : list A :=
  foldr (insert_by key) [] l.

(** [Message.find({conversationId}).sort({createdAt: 1}).limit(100).lean()] *)
Definition find_messages (cid : oid) (s : Store) : list Message :=
  take 100 (sort_by m_createdAt
              (filter (λ m, conversationId m = cid) (messages s))).

(** [Conversation.find({participants: u}).populate("participants", ..)
     .populate("lastMessage").sort({updatedAt: -1}).lean()].
    Mongoose runs the find with its sort and returns at once when no
    document matches.  When some document matches it populates them,
    and for the path [participants] it needs the model that
    [ref: "User"] names: none is registered in this service, so the
    call throws a [MissingSchemaError]. *)
Definition find_conversations (u : user_id) (s : Store)
  : exn + list PopulatedConversation :=
  match sort_by (λ c, - c_updatedAt c)
          (filter (λ c, u ∈ participants c) (conversations s)) with
  | [] => inr []
  | _ :: _ => inl "MissingSchemaError"
  end.

(** ** Effects of a handler *)

(** Store calls: the points where an [async] handler awaits. *)
Inductive Query : Type → Type :=
| Conversation_findOne (u r : user_id) : Query (option Conversation)
| Conversation_findById (id : oid) : Query (option Conversation)
| Conversation_create (ps : list user_id) : Query Conversation
| Message_create (cid : oid) (from : user_id) (txt : string) : Query Message
| Conversation_save (c : Conversation) : Query unit
| Message_find (cid : oid) : Query (list Message)
| Conversation_find (u : user_id) : Query (list PopulatedConversation).

(** Synchronous effects on the process state. *)
Inductive Effect : Type → Type :=
| onlineUsers_set (u : user_id) (s : socket_id) : Effect unit
| onlineUsers_get (u : user_id) : Effect (option socket_id)
| onlineUsers_has (u : user_id) : Effect bool
| onlineUsers_delete (u : user_id) : Effect unit
| socket_join (s : socket_id) (room : string) : Effect unit
| emit (t : Target) (e : Event) : Effect unit.

Inductive Task (A : Type) : Type :=
| Ret (a : A)
| Raise (e : exn)
| Do {R : Type} (e : Effect R) (k : R → Task A)
| Await {R : Type} (q : Query R) (k : exn + R → Task A).

Arguments Ret {A} a.
Arguments Raise {A} e.
Arguments Do {A R} e k.
Arguments Await {A R} q k.

Fixpoint bind {A B} (t : Task A) (f : A → Task B) : Task B :=
  match t with
  | Ret a => f a
  | Raise e => Raise e
  | Do e k => Do e (λ r, bind (k r) f)
  | Await q k => Await q (λ r, bind (k r) f)
  end.

(** [try { t } catch (err) { h err }] *)
Fixpoint try_catch {A} (t : Task A) (h : exn → Task A) : Task A :=
  match t with
  | Ret a => Ret a
  | Raise e => h e
  | Do e k => Do e (λ r, try_catch (k r) h)
  | Await q k => Await q (λ r, try_catch (k r) h)
  end.

Global Instance Task_ret : MRet Task := @Ret.
Global Instance Task_bind : MBind Task := λ A B f t, bind t f.

(** [await q]: a rejected promise is rethrown at the await. *)
Definition await {R} (q : Query R) : Task R :=
  Await q (λ r, match r with inl e => Raise e | inr x => Ret x end).

Definition perform {R} (e : Effect R) : Task R := Do e Ret.

(** ** Running a handler *)

(** What a store call does when the environment lets it through: its
    result, or the error Mongoose throws on its own account, and the
    store it leaves. *)
Definition query {R} (q : Query R) (t : Z) (s : Store) : (exn + R) * Store :=
  match q in Query R return (exn + R) * Store with
  | Conversation_findOne u r => (inr (findOne u r s), s)
  | Conversation_findById id => (inr (findById id s), s)
  | Conversation_create ps =>
      (inr (create_conversation ps t s).1, (create_conversation ps t s).2)
  | Message_create cid from txt =>
      (inr (create_message cid from txt t s).1,
       (create_message cid from txt t s).2)
  | Conversation_save c => (inr tt, save_conversation c t s)
  | Message_find cid => (inr (find_messages cid s), s)
  | Conversation_find u => (find_conversations u s, s)
  end.

(** One store call: it consumes one tick of the environment. *)
Definition exec {R} (E : Env) (q : Query R) (w : World) : (exn + R) * World :=
  match fails E (tick w) with
  | Some e =>
      (inl e, mkWorld (db w) (onlineUsers w) (rooms w) (outbox w) (S (tick w)))
  | None =>
      let r := query q (now E (tick w)) (db w) in
      (r.1, mkWorld r.2 (onlineUsers w) (rooms w) (outbox w) (S (tick w)))
  end.

Definition effect {R} (e : Effect R) (w : World) : R * World :=
  match e in Effect R return R * World with
  | onlineUsers_set u s =>
      (tt, mkWorld (db w) (<[u := s]> (onlineUsers w)) (rooms w) (outbox w) (tick w))
  | onlineUsers_get u => (onlineUsers w !! u, w)
  | onlineUsers_has u => (bool_decide (is_Some (onlineUsers w !! u)), w)
  | onlineUsers_delete u =>
      (tt, mkWorld (db w) (delete u (onlineUsers w)) (rooms w) (outbox w) (tick w))
  | socket_join s room =>
      (tt, mkWorld (db w) (onlineUsers w) (rooms w ++ [(room, s)]) (outbox w) (tick w))
  | emit t e =>
      (tt, mkWorld (db w) (onlineUsers w) (rooms w) (outbox w ++ [mkEmission t e]) (tick w))
  end.

(** A handler run from its event to its end with nothing in between.
    The result is [inl e] when the error [e] escapes the handler: for an
    [async] handler that is an unhandled rejection. *)
Fixpoint run {A} (E : Env) (t : Task A) (w : World) : (exn + A) * World :=
  match t with
  | Ret a => (inr a, w)
  | Raise e => (inl e, w)
  | Do e k => run E (k (effect e w).1) (effect e w).2
  | Await q k => run E (k (exec E q w).1) (exec E q w).2
  end.

(** The synchronous part of a handler, up to its next [await]. *)
Fixpoint settle {A} (t : Task A) (w : World) : Task A * World :=
  match t with
  | Do e k => settle (k (effect e w).1) (effect e w).2
  | _ => (t, w)
  end.

(** The store answers the pending call of a suspended handler, which then
    runs up to its next [await]. *)
Definition resume {A} (E : Env) (t : Task A) (w : World) : Task A * World :=
  match t with
  | Await q k => settle (k (exec E q w).1) (exec E q w).2
  | _ => settle t w
  end.

(** Several handlers in flight: [sched] lists, in order, which pending
    handler the store answers next. *)
Fixpoint interleave (E : Env) (sched : list nat) (pool : list (Task unit))
    (w : World) : list (Task unit) * World :=
  match sched with
  | [] => (pool, w)
  | i :: sched' =>
      match pool !! i with
      | Some t =>
          interleave E sched' (<[i := (resume E t w).1]> pool) (resume E t w).2
      | None => interleave E sched' pool w
      end
  end.

(** ** The handlers of a connection

    [userId] is [socket.user._id.toString()] and [socket] is [socket.id];
    both are fixed when the connection is made. *)

Definition connection (userId : user_id) (socket : socket_id) : Task unit :=
  perform (onlineUsers_set userId socket);;
  perform (socket_join socket userId);;
  perform (emit io_all (user_online userId)).

Definition send_message_body (userId : user_id) (socket : socket_id)
    (to message : option string) : Task unit :=
  match truthy to, truthy message with
  | Some recipientId, Some txt =>
      found ← await (Conversation_findOne userId recipientId);
      conversation ←
        match found with
        | Some c => Ret c
        | None => await (Conversation_create [userId; recipientId])
        end;
      newMessage ← await (Message_create (c_id conversation) userId txt);
      await (Conversation_save
               (mkConversation (c_id conversation) (participants conversation)
                  (Some (m_id newMessage))
                  (c_createdAt conversation) (c_updatedAt conversation)));;
      perform (emit (to_socket socket)
                 (message_sent (m_id newMessage) (c_id conversation)
                    (m_createdAt newMessage)));;
      recipientSocketId ← perform (onlineUsers_get recipientId);
      match truthy recipientSocketId with
      | Some sid =>
          perform (emit (io_to sid)
                     (receive_message userId txt (m_id newMessage)
                        (c_id conversation) (m_createdAt newMessage)))
      | None => Ret tt
      end
  | _, _ => Ret tt
  end.

Definition send_message (userId : user_id) (socket : socket_id)
    (to message : option string) : Task unit :=
  try_catch (send_message_body userId socket to message)
    (λ err, perform (emit (to_socket socket)
                       (message_error "Failed to send message" err))).

(** [conversationId] is [None] when the field is absent (or falsy); an
    object id in its string form is never falsy. *)
Definition load_messages_body (userId : user_id) (socket : socket_id)
    (conversationId : option oid) (recipientId : option string) : Task unit :=
  conversation ←
    match conversationId with
    | Some id => await (Conversation_findById id)
    | None =>
        match truthy recipientId with
        | Some r => await (Conversation_findOne userId r)
        | None => Ret None
        end
    end;
  match conversation with
  | None => perform (emit (to_socket socket) (messages_loaded [] None))
  | Some c =>
      msgs ← await (Message_find (c_id c));
      perform (emit (to_socket socket) (messages_loaded msgs (Some (c_id c))))
  end.

Definition load_messages (userId : user_id) (socket : socket_id)
    (conversationId : option oid) (recipientId : option string) : Task unit :=
  try_catch (load_messages_body userId socket conversationId recipientId)
    (λ _, perform (emit (to_socket socket)
                     (messages_error "Failed to load messages"))).

Definition get_conversations_body (userId : user_id) (socket : socket_id)
  : Task unit :=
  convs ← await (Conversation_find userId);
  perform (emit (to_socket socket) (conversations_loaded convs)).

(** The [catch] of this handler only writes to the console. *)
Definition get_conversations (userId : user_id) (socket : socket_id)
  : Task unit :=
  try_catch (get_conversations_body userId socket) (λ _, Ret tt).

Definition typing (userId : user_id) (recipientId : user_id) : Task unit :=
  recipientSocketId ← perform (onlineUsers_get recipientId);
  match truthy recipientSocketId with
  | Some sid => perform (emit (io_to sid) (user_typing userId))
  | None => Ret tt
  end.

Definition stop_typing (userId : user_id) (recipientId : user_id) : Task unit :=
  recipientSocketId ← perform (onlineUsers_get recipientId);
  match truthy recipientSocketId with
  | Some sid => perform (emit (io_to sid) (user_stop_typing userId))
  | None => Ret tt
  end.

Definition disconnect (userId : user_id) (socket : socket_id) : Task unit :=
  perform (onlineUsers_delete userId);;
  perform (emit io_all (user_offline userId)).

(** [onlineStatuses[id] = b] on an object literal.  The property name
    [__proto__] is inherited as an accessor whose setter ignores a value
    that is not an object: that assignment creates no own property. *)
Definition js_assign (o : gmap string bool) (key : string) (b : bool)
  : gmap string bool :=
  if decide (key = "__proto__") then o else <[key := b]> o.

(** [userIds.forEach(id => { onlineStatuses[id] = onlineUsers.has(id) })] *)
Fixpoint forEach_status (userIds : list string) (onlineStatuses : gmap string bool)
  : Task (gmap string bool) :=
  match userIds with
  | [] => Ret onlineStatuses
  | id :: rest =>
      b ← perform (onlineUsers_has id);
      forEach_status rest (js_assign onlineStatuses id b)
  end.

Definition check_online_status (socket : socket_id) (userIds : list string)
  : Task unit :=
  onlineStatuses ← forEach_status userIds ∅;
  perform (emit (to_socket socket) (online_statuses onlineStatuses)).

(** The [onlineUsers] field of the [/health] reply. *)
Definition health (w : World) : nat := size (onlineUsers w).

(** ** The inbound events of a connection

    The payloads, as the listeners destructure them; a field is [None]
    when the payload object does not have it. *)
Record SendPayload := mkSendPayload {
  p_to : option string;
  p_message : option string
}.

Record LoadPayload := mkLoadPayload {
  p_conversationId : option oid;
  p_recipientId : option string
}.

(** The payload of [typing] and of [stop-typing]. *)
Record TypingPayload := mkTypingPayload { t_recipientId : option string }.

(** [p_userIds] is [None] when the payload has no [userIds] to call
    [forEach] on. *)
Record StatusPayload := mkStatusPayload { p_userIds : option (list string) }.

(** An event is emitted by the client with or without a payload: the
    payload is [None] when the listener is called with [undefined] or
    [null].  [get-conversations] and [disconnect] take no argument. *)
Inductive Inbound :=
| on_connection
| on_send_message (payload : option SendPayload)
| on_load_messages (payload : option LoadPayload)
| on_get_conversations
| on_typing (payload : option TypingPayload)
| on_stop_typing (payload : option TypingPayload)
| on_check_online_status (payload : option StatusPayload)
| on_disconnect.

(** [({ a, b }) => body]: the pattern in the parameter list is matched
    when the listener is called, so before and outside any [try] of its
    body, and matching it against [undefined] or [null] throws a
    [TypeError]. *)
Definition destructure {P A} (payload : option P) (body : P → Task A) : Task A :=
  match payload with
  | Some p => body p
  | None => Raise "TypeError"
  end.

(** The listeners.  [typing] and [stop-typing] without a [recipientId]
    look up [undefined] in the registry, whose keys are strings: they
    find nothing and emit nothing.  [check-online-status] without
    [userIds] throws at [userIds.forEach], before any effect. *)
Definition handler (userId : user_id) (socket : socket_id) (ev : Inbound)
  : Task unit :=
  match ev with
  | on_connection => connection userId socket
  | on_send_message payload =>
      destructure payload
        (λ p, send_message userId socket (p_to p) (p_message p))
  | on_load_messages payload =>
      destructure payload
        (λ p, load_messages userId socket (p_conversationId p) (p_recipientId p))
  | on_get_conversations => get_conversations userId socket
  | on_typing payload =>
      destructure payload
        (λ p, match t_recipientId p with
              | Some r => typing userId r
              | None => Ret tt
              end)
  | on_stop_typing payload =>
      destructure payload
        (λ p, match t_recipientId p with
              | Some r => stop_typing userId r
              | None => Ret tt
              end)
  | on_check_online_status payload =>
      destructure payload
        (λ p, match p_userIds p with
              | Some ids => check_online_status socket ids
              | None => Raise "TypeError"
              end)
  | on_disconnect => disconnect userId socket
  end.


(** ** Notions used to state the properties *)

(** No store call throws. *)
Definition no_faults (E : Env) : Prop := ∀ k, fails E k = None.

(** Handlers processed one after the other, each run to its end before
    the next one starts. *)
Fixpoint run_all (E : Env) (ts : list (Task unit)) (w : World) : World :=
  match ts with
  | [] => w
  | t :: ts' => run_all E ts' (run E t w).2
  end.

(** The number of conversations stored for the pair [{a, b}]. *)
Definition count_pair (a b : user_id) (s : Store) : nat :=
  length (filter (all_of a b) (conversations s)).

Definition conversation_messages (cid : oid) (s : Store) : list Message :=
  filter (λ m, conversationId m = cid) (messages s).

(** Creation times never decrease along the list. *)
Definition ascending (l : list Message) : Prop :=
  StronglySorted (λ a b, m_createdAt a ≤ m_createdAt b) l.

(** The specification's most-recent window: the last [n] messages of the
    conversation in creation order. *)
Definition newest_window (n : nat) (l : list Message) : list Message :=
  drop (length l - n) (sort_by m_createdAt l).

(** Socket ids handed out by the transport are never empty. *)
Definition handles_live (reg : gmap string string) : Prop :=
  ∀ u sid, reg !! u = Some sid → sid ≠ "".

(** A [send-message] event with both fields present. *)
Record Send := mkSend {
  s_from : user_id;
  s_socket : socket_id;
  s_to : string;
  s_text : string
}.

Definition send_task (x : Send) : Task unit :=
  send_message (s_from x) (s_socket x) (Some (s_to x)) (Some (s_text x)).

(** [x] is a well-formed send between [a] and [b], in either direction. *)
Definition between (a b : user_id) (x : Send) : Prop :=
  ((s_from x = a ∧ s_to x = b) ∨ (s_from x = b ∧ s_to x = a)) ∧ s_text x ≠ "".

(** The conversation a [load-messages] payload designates: by id when
    an id is given, else by the pair made with the recipient. *)
Definition resolve (userId : user_id) (conversationId : option oid)
    (recipientId : option string) (s : Store) : option Conversation :=
  match conversationId with
  | Some id => findById id s
  | None =>
      match truthy recipientId with
      | Some r => findOne userId r s
      | None => None
      end
  end.


(** The stored messages of the conversation of the pair [{a, b}]. *)
Definition pair_messages (a b : user_id) (s : Store) : list Message :=
  match findOne a b s with
  | Some c => conversation_messages (c_id c) s
  | None => []
  end.

(** The store call of [send-message] that throws first, if any. *)
Inductive Stage := AtFindOne | AtCreateConversation | AtCreateMessage | AtSave.

Definition first_fault (E : Env) (ks : list (nat * Stage)) : option (Stage * exn) :=
  head (omap (λ p, (λ e, (p.2, e)) <$> fails E p.1) ks).

Definition failing_stage (E : Env) (w : World) (userId recipientId : user_id)
  : option (Stage * exn) :=
  let t := tick w in
  match fails E t, findOne userId recipientId (db w) with
  | Some e, _ => Some (AtFindOne, e)
  | None, Some _ =>
      first_fault E [(S t, AtCreateMessage); (S (S t), AtSave)]
  | None, None =>
      first_fault E [(S t, AtCreateConversation); (S (S t), AtCreateMessage);
                     (S (S (S t)), AtSave)]
  end.

(** Every object id in the store came from the allocator. *)
Definition ids_allocated (s : Store) : Prop :=
  Forall (λ c, (c_id c < next_oid s)%nat) (conversations s) ∧
  Forall (λ m, (conversationId m < next_oid s)%nat) (messages s).

(** Handlers that only read: their store calls are lookups and their
    effects are registry reads and emissions. *)
Definition query_reads {R} (q : Query R) : Prop :=
  match q with
  | Conversation_create _ | Message_create _ _ _ | Conversation_save _ => False
  | _ => True
  end.

Definition effect_reads {R} (e : Effect R) : Prop :=
  match e with
  | onlineUsers_get _ | onlineUsers_has _ | emit _ _ => True
  | _ => False
  end.

Inductive reads_only {A} : Task A → Prop :=
| reads_Ret a : reads_only (Ret a)
| reads_Raise e : reads_only (Raise e)
| reads_Do {R} (e : Effect R) k :
    effect_reads e → (∀ r, reads_only (k r)) → reads_only (Do e k)
| reads_Await {R} (q : Query R) k :
    query_reads q → (∀ r, reads_only (k r)) → reads_only (Await q k).

(** What holds of every world the service can be in. *)
Definition invariant (w : World) : Prop :=
  ids_allocated (db w) ∧ handles_live (onlineUsers w).

(** ** Concrete environments and worlds *)

Definition env0 : Env := mkEnv (λ _, None) (λ k, Z.of_nat k).

(** The fourth store call throws: for a first message that is the
    [conversation.save()] after the message was created. *)
Definition env_save_fails : Env :=
  mkEnv (λ k, if decide (k = 3%nat) then Some "write conflict" else None)
        (λ k, Z.of_nat k).

Definition env_down : Env := mkEnv (λ _, Some "store unreachable") (λ k, Z.of_nat k).


Definition world0 : World := mkWorld (mkStore [] [] [] 0) ∅ [] [] 0.

(** The world after 101 messages from A to B, and the conversation it
    then holds for them. *)
Definition world101 : World :=
  run_all env0 (replicate 101 (send_task (mkSend "A" "s1" "B" "m"))) world0.

Definition conversation101 : Conversation :=
  mkConversation 0 ["A"; "B"] (Some 101%nat) 1 303.

(** A and B are both connected. *)
Definition world_online : World :=
  run_all env0 [connection "A" "s1"; connection "B" "s2"] world0.

(** Two first messages between A and B, both handlers started before the
    store has answered either of them. *)
Definition racing_pool : list (Task unit) :=
  [ (settle (send_message "A" "s1" (Some "B") (Some "hi")) world0).1;
    (settle (send_message "B" "s2" (Some "A") (Some "yo")) world0).1 ].

(** ** The handshake

    [io.use(verifyJWT)] runs the middleware of [middleware/socketAuth.js]
    before the connection listener.  [jwt.verify] belongs to the
    [jsonwebtoken] package and is a parameter here: it returns the decoded
    payload or throws.  The secret is [process.env.ACCESS_TOKEN_SECRET],
    which may be unset. *)

(** The payload of a verified token; its [_id] may be missing. *)
Record Decoded := mkDecoded { d_id : option string }.

(** The part of a socket the middleware reads and writes: its id, the
    [token] of [handshake.auth] ([None] when [auth] or [token] is
    absent), and the [user] field. *)
Record Socket := mkSocket {
  sock_id : socket_id;
  auth_token : option string;
  sock_user : option Decoded
}.

(** What the middleware passes to [next]. *)
Inductive Next := next_ok | next_error (message : string).

Definition verifyJWT (jwt_verify : string → option string → exn + Decoded)
    (secret : option string) (socket : Socket) : Socket * Next :=
  match truthy (auth_token socket) with
  | None => (socket, next_error "Noo token provided")
  | Some token =>
      match jwt_verify token secret with
      | inr decoded =>
          (mkSocket (sock_id socket) (auth_token socket) (Some decoded), next_ok)
      | inl _ => (socket, next_error "Unauthorized")
      end
  end.

(** [const userId = socket.user._id.toString()] and the rest of the
    connection listener.  Reading [_id] off a payload that has none
    throws a [TypeError] before anything else is done. *)
Definition on_connection_listener (socket : Socket) : Task unit :=
  match sock_user socket ≫= d_id with
  | Some userId => connection userId (sock_id socket)
  | None => Raise "TypeError"
  end.

(** A socket that connects: the listener runs only when the middleware
    called [next()] without an error. *)
Definition handshake (jwt_verify : string → option string → exn + Decoded)
    (secret : option string) (socket : Socket) : Task unit :=
  match verifyJWT jwt_verify secret socket with
  | (socket', next_ok) => on_connection_listener socket'
  | (_, next_error _) => Ret tt
  end.

(** ** Further notions *)

(** Events of several connections, each handled to its end before the
    next is taken up.  When an error escapes a handler the run goes on
    with the next event: a process that dies of the error reaches fewer
    worlds, not more. *)
Fixpoint run_events (E : Env) (evs : list (user_id * socket_id * Inbound))
    (w : World) : World :=
  match evs with
  | [] => w
  | (u, s, ev) :: evs' => run_events E evs' (run E (handler u s ev) w).2
  end.

(** What a stored conversation is known by: these never change. *)
Definition identity_of (c : Conversation) : oid * list user_id * Z :=
  (c_id c, participants c, c_createdAt c).

(** [s'] holds everything [s] holds: the same messages, unchanged and in
    the same order, possibly followed by new ones, and the same
    conversations with the same participants, possibly followed by new
    ones. *)
Definition grows (s s' : Store) : Prop :=
  messages s `prefix_of` messages s' ∧
  (identity_of <$> conversations s) `prefix_of` (identity_of <$> conversations s') ∧
  users s' = users s.

(** Every stored message belongs to a stored conversation. *)
Definition messages_filed (s : Store) : Prop :=
  Forall (λ m, ∃ c, c ∈ conversations s ∧ c_id c = conversationId m) (messages s).

(** Every last-message pointer designates a stored message of that very
    conversation. *)
Definition pointers_valid (s : Store) : Prop :=
  Forall (λ c, ∀ mid, lastMessage c = Some mid →
                ∃ m, m ∈ messages s ∧ m_id m = mid ∧ conversationId m = c_id c)
         (conversations s).

(** Every conversation was made for two participants. *)
Definition pairs_only (s : Store) : Prop :=
  Forall (λ c, length (participants c) = 2%nat) (conversations s).

Definition message_ids_allocated (s : Store) : Prop :=
  Forall (λ m, (m_id m < next_oid s)%nat) (messages s).

Definition store_sound (s : Store) : Prop :=
  ids_allocated s ∧ message_ids_allocated s ∧
  messages_filed s ∧ pointers_valid s ∧ pairs_only s.

(** The stored conversations [u] takes part in: the documents matched
    by the filter [{ participants: u }]. *)
Definition conversations_of (u : user_id) (s : Store) : list Conversation :=
  filter (λ c, u ∈ participants c) (conversations s).

(** Handlers that leave the presence registry and the rooms alone: their
    only effects are registry reads and emissions. *)
Inductive presence_free {A} : Task A → Prop :=
| pfree_Ret a : presence_free (Ret a)
| pfree_Raise e : presence_free (Raise e)
| pfree_Do {R} (e : Effect R) k :
    effect_reads e → (∀ r, presence_free (k r)) → presence_free (Do e k)
| pfree_Await {R} (q : Query R) k :
    (∀ r, presence_free (k r)) → presence_free (Await q k).

(** A token service for the examples: the token ["good"] decodes to the
    user A, the token ["anonymous"] to a payload without [_id], and
    every other token is refused. *)
Definition jwt_example (token : string) (secret : option string)
  : exn + Decoded :=
  if decide (token = "good") then inr (mkDecoded (Some "A"))
  else if decide (token = "anonymous") then inr (mkDecoded None)
  else inl "invalid signature".

(** A has sent one message to B. *)
Definition world_chat : World :=
  (run env0 (send_message "A" "s1" (Some "B") (Some "hi")) world0).2.

(** A has sent 100 messages to B. *)
Definition world100 : World :=
  run_all env0 (replicate 100 (send_task (mkSend "A" "s1" "B" "m"))) world0.

(** ** Tactics *)

Ltac task_simpl :=
  unfold mbind, Task_bind, mret, Task_ret, await, perform; simpl.

Ltac task_simpl_in H :=
  unfold mbind, Task_bind, mret, Task_ret, await, perform in H; simpl in H.

(** The next store call of the handler run in [H]: it throws or returns. *)
Ltac next_call E k H :=
  let e := fresh "e" in
  let F := fresh "F" in
  unfold exec in H; simpl in H;
  destruct (fails E k) as [e|] eqn:F; simpl in H.

(** The run in [H] has ended: read the final world off it and replay the
    recorded answers of the environment in the goal. *)
Ltac stage_reached H :=
  inversion H; subst; simpl;
  repeat match goal with
         | F : fails _ _ = _ |- _ => rewrite ?F; clear F
         end;
  simpl.

(** ** Running composed handlers *)

Lemma run_bind {A B} E (t : Task A) (f : A → Task B) w :
  run E (bind t f) w =
    match (run E t w).1 with
    | inr a => run E (f a) (run E t w).2
    | inl e => (inl e, (run E t w).2)
    end.
Proof.
  revert w; induction t as [a|e|R e k IH|R q k IH]; intros w; simpl; auto.
Qed.

Lemma run_try_catch {A} E (t : Task A) (h : exn → Task A) w :
  run E (try_catch t h) w =
    match (run E t w).1 with
    | inr a => (inr a, (run E t w).2)
    | inl e => run E (h e) (run E t w).2
    end.
Proof.
  revert w; induction t as [a|e|R e k IH|R q k IH]; intros w; simpl; auto.
Qed.

(** Running a handler to its end is resuming it until nothing is pending. *)
Lemma run_settle {A} E (t : Task A) w :
  run E t w = run E (settle t w).1 (settle t w).2.
Proof.
  revert w; induction t as [a|e|R e k IH|R q k IH]; intros w; simpl; auto.
Qed.

Lemma run_resume {A} E (t : Task A) w :
  run E t w = run E (resume E t w).1 (resume E t w).2.
Proof.
  destruct t as [a|e|R e k|R q k]; simpl; auto.
  - apply (run_settle E (k (effect e w).1)).
  - apply (run_settle E (k (exec E q w).1)).
Qed.

(** A handler that is alone in flight: resuming it step by step is
    running it. *)
Lemma interleave_alone E n (t : Task unit) w :
  ∃ t', (interleave E (replicate n 0%nat) [t] w).1 = [t'] ∧
        run E t' (interleave E (replicate n 0%nat) [t] w).2 = run E t w.
Proof.
  revert t w; induction n as [|n IH]; intros t w; simpl.
  - by exists t.
  - destruct (IH (resume E t w).1 (resume E t w).2) as (t' & H1 & H2).
    exists t'. split; [done|]. rewrite H2. symmetry. apply run_resume.
Qed.

Lemma no_faults_env0 : no_faults env0.
Proof. intros k. reflexivity. Qed.

Lemma truthy_ne s : s ≠ "" → truthy (Some s) = Some s.
Proof. destruct s; simpl; congruence. Qed.

(** ** Sorting *)

Lemma insert_by_perm {A} (key : A → Z) x l : insert_by key x l ≡ₚ x :: l.
Proof.
  induction l as [|y l IH]; simpl; [done|].
  destruct (key x <=? key y); [done|].
  rewrite IH. apply Permutation_swap.
Qed.

Lemma sort_by_perm {A} (key : A → Z) l : sort_by key l ≡ₚ l.
Proof.
  induction l as [|x l IH]; simpl; [done|].
  rewrite insert_by_perm. by rewrite IH.
Qed.

Lemma length_sort_by {A} (key : A → Z) l : length (sort_by key l) = length l.
Proof. by rewrite sort_by_perm. Qed.

Lemma insert_by_sorted {A} (key : A → Z) x l :
  StronglySorted (λ a b, key a ≤ key b) l →
  StronglySorted (λ a b, key a ≤ key b) (insert_by key x l).
Proof.
  induction 1 as [|y l Hs IH Hy]; simpl.
  - repeat constructor.
  - destruct (Z.leb_spec (key x) (key y)) as [Hle|Hgt].
    + constructor; [by constructor|].
      constructor; [done|].
      eapply Forall_impl; [exact Hy|]. simpl. lia.
    + constructor; [done|].
      rewrite insert_by_perm. constructor; [lia|done].
Qed.

Lemma sort_by_sorted {A} (key : A → Z) l :
  StronglySorted (λ a b, key a ≤ key b) (sort_by key l).
Proof.
  induction l as [|x l IH]; simpl; [constructor|]. by apply insert_by_sorted.
Qed.

Lemma StronglySorted_take {A} (R : A → A → Prop) n l :
  StronglySorted R l → StronglySorted R (take n l).
Proof.
  intros H; revert n; induction H as [|x l Hs IH Hx]; intros [|n]; simpl;
    try constructor; auto.
  by apply Forall_take.
Qed.

Lemma StronglySorted_split {A} (R : A → A → Prop) l1 l2 :
  StronglySorted R (l1 ++ l2) → ∀ a b, a ∈ l1 → b ∈ l2 → R a b.
Proof.
  induction l1 as [|x l1 IH]; simpl; intros Hs a b Ha Hb.
  - by apply elem_of_nil in Ha.
  - apply StronglySorted_inv in Hs as [Hs Hx].
    apply elem_of_cons in Ha as [->|Ha]; [|by eapply IH].
    rewrite Forall_forall in Hx. apply Hx. apply elem_of_app. by right.
Qed.

(** ** The store primitives *)

Lemma all_of_comm a b c : all_of a b c ↔ all_of b a c.
Proof. unfold all_of. tauto. Qed.

Lemma findOne_comm a b s : findOne a b s = findOne b a s.
Proof.
  unfold findOne. f_equal. apply list_filter_iff. intros c. apply all_of_comm.
Qed.

Lemma findOne_None_count a b s : findOne a b s = None ↔ count_pair a b s = 0%nat.
Proof.
  unfold findOne, count_pair.
  destruct (filter (all_of a b) (conversations s)); simpl; split; congruence.
Qed.

Lemma findOne_None_filter a b s :
  findOne a b s = None → filter (all_of a b) (conversations s) = [].
Proof. unfold findOne. by destruct (filter _ _). Qed.

Lemma findOne_elem_of a b s c : findOne a b s = Some c → c ∈ conversations s.
Proof.
  unfold findOne. intros H. apply head_Some_elem_of in H.
  by apply list_elem_of_filter in H as [_ ?].
Qed.

Lemma findById_id id s c : findById id s = Some c → c_id c = id ∧ c ∈ conversations s.
Proof.
  unfold findById. intros H. apply head_Some_elem_of in H.
  apply list_elem_of_filter in H. tauto.
Qed.

Lemma set_lastMessage_id id last t d : c_id (set_lastMessage id last t d) = c_id d.
Proof. unfold set_lastMessage. by case_decide. Qed.

Lemma set_lastMessage_participants id last t d :
  participants (set_lastMessage id last t d) = participants d.
Proof. unfold set_lastMessage. by case_decide. Qed.

(** Saving the last-message pointer keeps the participants and the ids,
    so a filter on those commutes with it. *)
Lemma filter_saved (P : Conversation → Prop) `{!∀ c, Decision (P c)}
    (f : Conversation → Conversation) (l : list Conversation) :
  (∀ c, P (f c) ↔ P c) →
  filter P (f <$> l) = f <$> filter P l.
Proof.
  intros Hf. induction l as [|c l IH]; [done|].
  rewrite fmap_cons, !filter_cons.
  destruct (decide (P (f c))) as [Ha|Ha], (decide (P c)) as [Hb|Hb];
    rewrite ?IH; simpl; try done; destruct (Hf c); tauto.
Qed.

Lemma filter_all_of_saved a b id last t (l : list Conversation) :
  filter (all_of a b) (set_lastMessage id last t <$> l) =
  set_lastMessage id last t <$> filter (all_of a b) l.
Proof.
  apply filter_saved. intros c. unfold all_of.
  by rewrite set_lastMessage_participants.
Qed.

Lemma conversation_messages_fresh s :
  ids_allocated s → conversation_messages (next_oid s) s = [].
Proof.
  unfold ids_allocated, conversation_messages. intros [_ H].
  induction H as [|m l Hm _ IH]; [done|].
  rewrite filter_cons_False by lia. exact IH.
Qed.

Lemma find_messages_window cid s :
  find_messages cid s = take 100 (sort_by m_createdAt (conversation_messages cid s)).
Proof. reflexivity. Qed.

Lemma find_messages_ascending cid s : ascending (find_messages cid s).
Proof. apply StronglySorted_take, (sort_by_sorted m_createdAt). Qed.

Lemma length_find_messages cid s :
  length (find_messages cid s) = min (length (conversation_messages cid s)) 100.
Proof.
  rewrite find_messages_window, length_take, length_sort_by. lia.
Qed.

(** ** The presence registry *)

Lemma handles_live_empty : handles_live ∅.
Proof. intros u sid H. by rewrite lookup_empty in H. Qed.

Lemma handles_live_insert reg u s :
  s ≠ "" → handles_live reg → handles_live (<[u := s]> reg).
Proof.
  intros Hs H v sid. rewrite lookup_insert. case_decide.
  - intros [= <-]. done.
  - apply H.
Qed.

Lemma handles_live_delete reg u : handles_live reg → handles_live (delete u reg).
Proof.
  intros H v sid. rewrite lookup_delete. case_decide; [done|apply H].
Qed.

(** The registry only ever holds the socket ids given at connection. *)
Lemma connection_handles_live E w u s :
  s ≠ "" → handles_live (onlineUsers w) →
  handles_live (onlineUsers (run E (connection u s) w).2).
Proof. intros Hs H. simpl. by apply handles_live_insert. Qed.

Lemma disconnect_handles_live E w u s :
  handles_live (onlineUsers w) →
  handles_live (onlineUsers (run E (disconnect u s) w).2).
Proof. intros H. simpl. by apply handles_live_delete. Qed.

Lemma handles_live_truthy reg u :
  handles_live reg → truthy (reg !! u) = reg !! u.
Proof.
  intros H. destruct (reg !! u) as [sid|] eqn:Hu; [|done].
  apply H in Hu. by apply truthy_ne.
Qed.

Lemma world_online_handles_live : handles_live (onlineUsers world_online).
Proof.
  apply (connection_handles_live env0); [done|].
  apply (connection_handles_live env0); [done|].
  apply handles_live_empty.
Qed.

(** C1, as the handler has it.  The [disconnect] handler deletes the
    registry entry by identity, whichever socket holds it, and then
    broadcasts [user-offline]: after [connection u old] and
    [connection u new] the registry maps [u] to [new]; the disconnect of
    the old connection leaves no entry for [u] and broadcasts
    [user-offline u]; and every disconnect broadcasts, in any world,
    whether or not it removed an entry. *)
Theorem disconnect_evicts_by_identity E w u old new :
  let w2 := run_all E [connection u old; connection u new] w in
  let w3 := (run E (disconnect u old) w2).2 in
  onlineUsers w2 !! u = Some new ∧
  onlineUsers w3 !! u = None ∧
  outbox w3 = outbox w2 ++ [mkEmission io_all (user_offline u)] ∧
  ∀ w' s, outbox (run E (disconnect u s) w').2 =
            outbox w' ++ [mkEmission io_all (user_offline u)].
Proof.
  simpl. repeat split.
  - by rewrite lookup_insert_eq.
  - by rewrite lookup_delete_eq.
Qed.

(** C1, as stated, fails: A connects on s1, then on s2, then the stale
    s1 disconnects.  The entry for A is not s2 any more and a
    [user-offline] broadcast went out. *)
Lemma stale_disconnect_counterexample :
  let w := run_all env0
             [connection "A" "s1"; connection "A" "s2"; disconnect "A" "s1"]
             world0 in
  onlineUsers w !! "A" ≠ Some "s2" ∧
  outbox w = [mkEmission io_all (user_online "A");
              mkEmission io_all (user_online "A");
              mkEmission io_all (user_offline "A")].
Proof. split; [vm_compute; discriminate | reflexivity]. Qed.

(** *** [check-online-status] *)

Lemma run_forEach_status E w ids acc :
  ∃ statuses,
    run E (forEach_status ids acc) w = (inr statuses, w) ∧
    (∀ id, id ∈ ids → id ≠ "__proto__" →
       statuses !! id = Some (bool_decide (is_Some (onlineUsers w !! id)))) ∧
    (∀ id, id ∉ ids → statuses !! id = acc !! id).
Proof.
  revert acc; induction ids as [|x ids IH]; intros acc.
  - exists acc. split; [done|]. split; [|done].
    intros id Hin. by apply elem_of_nil in Hin.
  - destruct (IH (js_assign acc x (bool_decide (is_Some (onlineUsers w !! x)))))
      as (st & Hrun & Hin & Hout).
    exists st. task_simpl. split; [exact Hrun|]. split.
    + intros id Hid Hp. destruct (decide (id ∈ ids)) as [Hi|Hi]; [by apply Hin|].
      apply elem_of_cons in Hid as [->|Hid]; [|done].
      rewrite Hout by done. unfold js_assign. rewrite decide_False by done.
      by rewrite lookup_insert_eq.
    + intros id Hn. rewrite Hout by set_solver.
      unfold js_assign. case_decide; [done|].
      rewrite lookup_insert_ne; [done|set_solver].
Qed.

(** C9.  For every list of ids, [check-online-status] returns normally
    and sends the asking socket one [online-statuses] object; the object
    maps each listed identity to [true] exactly when the registry holds
    an entry for it, and has no other key.  (The one property name that
    a plain assignment cannot create on the reply object, [__proto__],
    is not the string form of any store key; the other listed ids are
    answered even when it is in the list.) *)
Theorem check_online_status_exact E w sock ids :
  ∃ statuses,
    (run E (check_online_status sock ids) w).1 = inr () ∧
    outbox (run E (check_online_status sock ids) w).2 =
      outbox w ++ [mkEmission (to_socket sock) (online_statuses statuses)] ∧
    (∀ id, id ∈ ids → id ≠ "__proto__" →
       statuses !! id = Some (bool_decide (is_Some (onlineUsers w !! id)))) ∧
    (∀ id, is_Some (statuses !! id) → id ∈ ids).
Proof.
  destruct (run_forEach_status E w ids ∅) as (st & Hrun & Hin & Hout).
  exists st. unfold check_online_status. unfold mbind, Task_bind.
  rewrite run_bind, Hrun. simpl. repeat split; [exact Hin|].
  intros id [b Hb]. destruct (decide (id ∈ ids)) as [|Hn]; [done|].
  rewrite Hout in Hb by done. by rewrite lookup_empty in Hb.
Qed.

(** The specification's example: one registered, one never seen. *)
Lemma check_online_status_witness :
  ∃ statuses,
    outbox (run env0 (check_online_status "s1" ["B"; "neverSeen"]) world_online).2 =
      outbox world_online ++
      [mkEmission (to_socket "s1") (online_statuses statuses)] ∧
    statuses !! "B" = Some true ∧
    statuses !! "neverSeen" = Some false.
Proof.
  destruct (check_online_status_exact env0 world_online "s1" ["B"; "neverSeen"])
    as (st & _ & Hout & Hin & _).
  exists st. split; [exact Hout|]. split.
  - rewrite Hin; [reflexivity|apply list_elem_of_here|discriminate].
  - rewrite Hin;
      [reflexivity|apply list_elem_of_further, list_elem_of_here|discriminate].
Defined.

(** ** [send-message] *)

(** C4, as the handler has it.  A [send-message] whose [to] or [message]
    is missing or empty returns at the guard: the handler emits nothing
    at all (no [message-error] either), makes no store call, and leaves
    the whole world, so every Conversation and Message, as it was. *)
Theorem send_message_invalid_is_silent E w u sock to message :
  truthy to = None ∨ truthy message = None →
  run E (send_message u sock to message) w = (inr (), w).
Proof.
  intros H. unfold send_message, send_message_body.
  destruct H as [-> | ->]; [|destruct (truthy to)]; reflexivity.
Qed.

Lemma send_message_invalid_witness :
  run env0 (send_message "A" "s1" None (Some "hi")) world0 = (inr (), world0).
Proof. apply send_message_invalid_is_silent. left. reflexivity. Defined.

(** C4, as stated, fails: neither an empty [message] nor a missing [to]
    makes the handler emit a [message-error]. *)
Lemma send_message_invalid_counterexample :
  outbox (run env0 (send_message "A" "s1" (Some "B") (Some "")) world0).2 = [] ∧
  outbox (run env0 (send_message "A" "s1" None (Some "hi")) world0).2 = [].
Proof. split; reflexivity. Qed.

(** What a send that went through has done: it used the conversation [c]
    (found, or created and then listed in [cs]), stored one message,
    moved the last-message pointer of [c] and emitted the confirmation,
    followed by the delivery when the registry holds a socket for the
    recipient. *)
Lemma send_message_body_ok E w w' u sock r txt :
  r ≠ "" → txt ≠ "" →
  run E (send_message_body u sock (Some r) (Some txt)) w = (inr (), w') →
  ∃ c cs tm ts,
    let mid := (next_oid (db w) + length cs)%nat in
    ((findOne u r (db w) = Some c ∧ cs = []) ∨
     (findOne u r (db w) = None ∧ cs = [c] ∧ c_id c = next_oid (db w) ∧
      participants c = [u; r] ∧ lastMessage c = None)) ∧
    conversations (db w') =
      set_lastMessage (c_id c) (Some mid) ts <$> (conversations (db w) ++ cs) ∧
    messages (db w') =
      messages (db w) ++ [mkMessage mid (c_id c) u txt false tm tm] ∧
    next_oid (db w') = S mid ∧
    users (db w') = users (db w) ∧
    onlineUsers w' = onlineUsers w ∧
    outbox w' =
      outbox w ++
      mkEmission (to_socket sock) (message_sent mid (c_id c) tm) ::
      match truthy (onlineUsers w !! r) with
      | Some sid =>
          [mkEmission (io_to sid) (receive_message u txt mid (c_id c) tm)]
      | None => []
      end.
Proof.
  intros Hr Ht H. unfold send_message_body in H. rewrite !truthy_ne in H by done.
  task_simpl_in H.
  next_call E (tick w) H; [discriminate|].
  destruct (findOne u r (db w)) as [c|] eqn:Hf; simpl in H.
  - next_call E (S (tick w)) H; [discriminate|].
    next_call E (S (S (tick w))) H; [discriminate|].
    exists c, [], (now E (S (tick w))), (now E (S (S (tick w)))).
    simpl. rewrite Nat.add_0_r, app_nil_r.
    destruct (truthy (onlineUsers w !! r)); simpl in H; inversion H; subst; simpl;
      rewrite <- ?app_assoc; simpl; repeat split; auto.
  - next_call E (S (tick w)) H; [discriminate|].
    next_call E (S (S (tick w))) H; [discriminate|].
    next_call E (S (S (S (tick w)))) H; [discriminate|].
    exists (mkConversation (next_oid (db w)) [u; r] None
              (now E (S (tick w))) (now E (S (tick w)))),
      [mkConversation (next_oid (db w)) [u; r] None
         (now E (S (tick w))) (now E (S (tick w)))],
      (now E (S (S (tick w)))), (now E (S (S (S (tick w))))).
    simpl. replace (next_oid (db w) + 1)%nat with (S (next_oid (db w))) by lia.
    split; [right; repeat split; auto|].
    destruct (truthy (onlineUsers w !! r)); simpl in H; inversion H; subst; simpl;
      rewrite <- ?app_assoc; simpl; repeat split; auto.
Qed.

Lemma send_message_body_no_faults E w u sock r txt :
  no_faults E → r ≠ "" → txt ≠ "" →
  (run E (send_message_body u sock (Some r) (Some txt)) w).1 = inr ().
Proof.
  intros HE Hr Ht. unfold send_message_body. rewrite !truthy_ne by done.
  task_simpl. unfold exec; simpl. rewrite HE; simpl.
  destruct (findOne u r (db w)) as [c|] eqn:Hf; simpl;
    repeat (unfold exec; simpl; rewrite HE; simpl);
    by destruct (truthy (onlineUsers w !! r)).
Qed.

(** When the body returns, the handler is the body. *)
Lemma send_message_returns E w u sock to message :
  (run E (send_message_body u sock to message) w).1 = inr () →
  run E (send_message u sock to message) w =
    (inr (), (run E (send_message_body u sock to message) w).2).
Proof. intros H. unfold send_message. rewrite run_try_catch, H. done. Qed.

(** C8.  A send that went through (both fields present, no store call
    threw) stores the message [m] in the conversation [c] and emits
    [message-sent] with the ids of [m] and [c] and the creation time of
    [m] on the sender's own socket, whatever the registry says about the
    recipient; it emits [receive-message] to the socket the registry
    holds for the recipient when there is one, and emits nothing more
    (no delivery, no error) when there is none. *)
Theorem send_message_delivery E w u sock r txt :
  r ≠ "" → txt ≠ "" →
  handles_live (onlineUsers w) →
  (run E (send_message_body u sock (Some r) (Some txt)) w).1 = inr () →
  let w' := (run E (send_message u sock (Some r) (Some txt)) w).2 in
  ∃ m c,
    messages (db w') = messages (db w) ++ [m] ∧
    sender m = u ∧ text m = txt ∧ conversationId m = c_id c ∧
    c ∈ conversations (db w') ∧ lastMessage c = Some (m_id m) ∧
    outbox w' =
      outbox w ++
      mkEmission (to_socket sock)
        (message_sent (m_id m) (c_id c) (m_createdAt m)) ::
      match onlineUsers w !! r with
      | Some sid =>
          [mkEmission (io_to sid)
             (receive_message u txt (m_id m) (c_id c) (m_createdAt m))]
      | None => []
      end.
Proof.
  intros Hr Ht Hlive Hok. rewrite send_message_returns by done. simpl.
  destruct (run E (send_message_body u sock (Some r) (Some txt)) w)
    as [res w'] eqn:Hrun.
  simpl in Hok; subst res; simpl.
  destruct (send_message_body_ok _ _ _ _ _ _ _ Hr Ht Hrun)
    as (c & cs & tm & ts & Hc & Hcs & Hms & _ & _ & _ & Hout).
  simpl in *.
  set (mid := (next_oid (db w) + length cs)%nat) in *.
  exists (mkMessage mid (c_id c) u txt false tm tm),
    (set_lastMessage (c_id c) (Some mid) ts c).
  rewrite set_lastMessage_id. simpl. repeat split; auto.
  - rewrite Hcs. apply list_elem_of_fmap_2, elem_of_app.
    destruct Hc as [[Hf ->]|(Hf & -> & _)].
    + left. by eapply findOne_elem_of.
    + right. by apply list_elem_of_singleton.
  - unfold set_lastMessage. by rewrite decide_True.
  - by rewrite Hout, handles_live_truthy.
Qed.

Lemma send_message_delivery_witness :
  let w' := (run env0 (send_message "A" "s1" (Some "B") (Some "hi")) world_online).2 in
  ∃ m c,
    messages (db w') = messages (db world_online) ++ [m] ∧
    sender m = "A" ∧ text m = "hi" ∧ conversationId m = c_id c ∧
    c ∈ conversations (db w') ∧ lastMessage c = Some (m_id m) ∧
    outbox w' =
      outbox world_online ++
      mkEmission (to_socket "s1")
        (message_sent (m_id m) (c_id c) (m_createdAt m)) ::
      match onlineUsers world_online !! "B" with
      | Some sid =>
          [mkEmission (io_to sid)
             (receive_message "A" "hi" (m_id m) (c_id c) (m_createdAt m))]
      | None => []
      end.
Proof.
  apply (send_message_delivery env0 world_online "A" "s1" "B" "hi").
  - discriminate.
  - discriminate.
  - exact world_online_handles_live.
  - vm_compute. reflexivity.
Defined.

(** C7, as the handler has it.  When a store call of a [send-message]
    throws [e], the handler itself still returns, emits neither
    [message-sent] nor [receive-message] but exactly one [message-error]
    to the sender, carrying [e] as its details, and modifies no stored
    record.  What it leaves behind depends on the call that threw: the
    lookup or the conversation creation, nothing; the message creation,
    at most the conversation just created, with no last message; the
    save of the last-message pointer, that conversation if one was
    created and also the new message. *)
Theorem send_message_failure E w u sock r txt e :
  r ≠ "" → txt ≠ "" →
  (run E (send_message_body u sock (Some r) (Some txt)) w).1 = inl e →
  let w' := (run E (send_message u sock (Some r) (Some txt)) w).2 in
  (run E (send_message u sock (Some r) (Some txt)) w).1 = inr () ∧
  outbox w' =
    outbox w ++
    [mkEmission (to_socket sock) (message_error "Failed to send message" e)] ∧
  onlineUsers w' = onlineUsers w ∧
  ∃ st cs ms,
    failing_stage E w u r = Some (st, e) ∧
    conversations (db w') = conversations (db w) ++ cs ∧
    messages (db w') = messages (db w) ++ ms ∧
    (cs = [] ∨
     ∃ c, cs = [c] ∧ findOne u r (db w) = None ∧
          participants c = [u; r] ∧ lastMessage c = None) ∧
    match st with
    | AtFindOne | AtCreateConversation => cs = [] ∧ ms = []
    | AtCreateMessage => ms = []
    | AtSave => ∃ m, ms = [m] ∧ sender m = u ∧ text m = txt
    end.
Proof.
  intros Hr Ht Hfail. unfold send_message. rewrite run_try_catch, Hfail. simpl.
  destruct (run E (send_message_body u sock (Some r) (Some txt)) w)
    as [res w'] eqn:H.
  simpl in Hfail; subst res; simpl.
  unfold send_message_body in H. rewrite !truthy_ne in H by done.
  task_simpl_in H. unfold failing_stage, first_fault.
  next_call E (tick w) H.
  { stage_reached H. repeat split; auto.
    exists AtFindOne, [], []. rewrite !app_nil_r. repeat split; auto. }
  destruct (findOne u r (db w)) as [c|] eqn:Hf; simpl in H.
  - next_call E (S (tick w)) H.
    { stage_reached H. repeat split; auto.
      exists AtCreateMessage, [], []. rewrite !app_nil_r. repeat split; auto. }
    next_call E (S (S (tick w))) H.
    { stage_reached H. repeat split; auto.
      exists AtSave, [], [mkMessage (next_oid (db w)) (c_id c) u txt false
                           (now E (S (tick w))) (now E (S (tick w)))].
      rewrite !app_nil_r. repeat split; eauto. }
    destruct (truthy (onlineUsers w !! r)); simpl in H; discriminate.
  - next_call E (S (tick w)) H.
    { stage_reached H. repeat split; auto.
      exists AtCreateConversation, [], []. rewrite !app_nil_r.
      repeat split; auto. }
    next_call E (S (S (tick w))) H.
    { stage_reached H. repeat split; auto.
      eexists AtCreateMessage, [_], []. rewrite !app_nil_r.
      repeat split; eauto. right. eexists. repeat split; eauto. }
    next_call E (S (S (S (tick w)))) H.
    { stage_reached H. repeat split; auto.
      eexists AtSave, [_], [_].
      split; [reflexivity|]. split; [reflexivity|]. split; [reflexivity|].
      split; [right; eexists; repeat split; eauto|].
      eexists. repeat split; eauto. }
    destruct (truthy (onlineUsers w !! r)); simpl in H; discriminate.
Qed.

Lemma send_message_failure_witness :
  outbox (run env_save_fails
            (send_message "A" "s1" (Some "B") (Some "hi")) world0).2 =
    outbox world0 ++
    [mkEmission (to_socket "s1")
       (message_error "Failed to send message" "write conflict")].
Proof.
  apply (send_message_failure env_save_fails world0 "A" "s1" "B" "hi"
           "write conflict").
  - discriminate.
  - discriminate.
  - vm_compute. reflexivity.
Defined.

(** C7, as stated, fails: the first message from A to B, with the store
    throwing at the save of the last-message pointer.  The sender gets
    the error, yet a Message stays in the store, in a conversation that
    is therefore not empty. *)
Lemma save_failure_counterexample :
  let w' := (run env_save_fails
               (send_message "A" "s1" (Some "B") (Some "hi")) world0).2 in
  (run env_save_fails
     (send_message_body "A" "s1" (Some "B") (Some "hi")) world0).1
    = inl "write conflict" ∧
  conversations (db w') = [mkConversation 0 ["A"; "B"] None 1 1] ∧
  messages (db w') = [mkMessage 1 0 "A" "hi" false 2 2] ∧
  conversation_messages 0 (db w') ≠ [].
Proof. repeat split; vm_compute; (reflexivity || discriminate). Qed.

(** *** The store keeps its ids allocated *)

Lemma ids_allocated_empty : ids_allocated (db world0).
Proof. split; constructor. Qed.

Ltac ids_solve :=
  unfold ids_allocated, save_conversation; simpl;
  rewrite ?Forall_fmap, ?Forall_app, ?Forall_singleton; simpl;
  repeat split; rewrite ?set_lastMessage_id; simpl; try lia;
  try (eapply Forall_impl; [eassumption|]; simpl; intros;
       rewrite ?set_lastMessage_id; lia).

Lemma send_message_keeps E w u sock to message :
  ids_allocated (db w) →
  ids_allocated (db (run E (send_message u sock to message) w).2) ∧
  onlineUsers (run E (send_message u sock to message) w).2 = onlineUsers w.
Proof.
  intros Hids. pose proof Hids as [Hc Hm].
  unfold send_message, send_message_body.
  destruct (truthy to) as [r|]; [|done].
  destruct (truthy message) as [txt|]; [|done].
  match goal with
  | |- context [run E ?t w] => destruct (run E t w) as [res w'] eqn:H
  end.
  simpl. task_simpl_in H.
  next_call E (tick w) H; [by inversion H|].
  destruct (findOne u r (db w)) as [c|] eqn:Hf; simpl in H.
  - assert (c_id c < next_oid (db w))%nat as Hlt.
    { apply findOne_elem_of in Hf. rewrite Forall_forall in Hc. by apply Hc. }
    next_call E (S (tick w)) H; [by inversion H|].
    next_call E (S (S (tick w))) H; [inversion H; split; [ids_solve|done]|].
    destruct (truthy (onlineUsers w !! r)); simpl in H; inversion H;
      (split; [ids_solve|done]).
  - next_call E (S (tick w)) H; [by inversion H|].
    next_call E (S (S (tick w))) H; [inversion H; split; [ids_solve|done]|].
    next_call E (S (S (S (tick w)))) H; [inversion H; split; [ids_solve|done]|].
    destruct (truthy (onlineUsers w !! r)); simpl in H; inversion H;
      (split; [ids_solve|done]).
Qed.

(** *** No error thrown in a [try] escapes a handler

    The body of each of the three [async] listeners is one [try] with a
    [catch] that does not throw: given its payload, the listener returns
    whatever the store does. *)

Lemma caught {A} E (t : Task A) (h : exn → Task A) w :
  (∀ e w', ∃ a, (run E (h e) w').1 = inr a) →
  ∃ a, (run E (try_catch t h) w).1 = inr a.
Proof.
  intros Hh. rewrite run_try_catch.
  destruct (run E t w).1 as [e|a]; [apply Hh|by exists a].
Qed.

Lemma handlers_never_reject E w u sock :
  (∀ to message, (run E (send_message u sock to message) w).1 = inr ()) ∧
  (∀ cid rid, (run E (load_messages u sock cid rid) w).1 = inr ()) ∧
  (run E (get_conversations u sock) w).1 = inr ().
Proof.
  repeat split; intros;
    match goal with
    | |- (run E (?f) w).1 = _ =>
        unfold send_message, load_messages, get_conversations;
        match goal with
        | |- (run E (try_catch ?t ?h) w).1 = _ =>
            destruct (caught E t h w) as [[] Ha];
              [intros; by exists ()|exact Ha]
        end
    end.
Qed.

(** ** [load-messages] *)

Lemma load_messages_unresolved E w u sock cid rid :
  fails E (tick w) = None →
  resolve u cid rid (db w) = None →
  (run E (load_messages u sock cid rid) w).1 = inr () ∧
  db (run E (load_messages u sock cid rid) w).2 = db w ∧
  outbox (run E (load_messages u sock cid rid) w).2 =
    outbox w ++ [mkEmission (to_socket sock) (messages_loaded [] None)].
Proof.
  intros HE Hres. unfold load_messages, load_messages_body, resolve in *.
  rewrite run_try_catch. task_simpl.
  destruct cid as [id|]; simpl.
  - unfold exec; simpl. rewrite HE; simpl. rewrite Hres. simpl. done.
  - destruct (truthy rid) as [r|]; simpl; [|done].
    unfold exec; simpl. rewrite HE; simpl. rewrite Hres. simpl. done.
Qed.

Lemma load_messages_resolved E w u sock cid rid c :
  no_faults E →
  resolve u cid rid (db w) = Some c →
  (run E (load_messages u sock cid rid) w).1 = inr () ∧
  db (run E (load_messages u sock cid rid) w).2 = db w ∧
  outbox (run E (load_messages u sock cid rid) w).2 =
    outbox w ++
    [mkEmission (to_socket sock)
       (messages_loaded (find_messages (c_id c) (db w)) (Some (c_id c)))].
Proof.
  intros HE Hres. unfold load_messages, load_messages_body, resolve in *.
  rewrite run_try_catch. task_simpl.
  destruct cid as [id|]; simpl.
  - unfold exec; simpl. rewrite HE; simpl. rewrite Hres. simpl.
    unfold exec; simpl. rewrite HE; simpl. done.
  - destruct (truthy rid) as [r|]; simpl; [|done].
    unfold exec; simpl. rewrite HE; simpl. rewrite Hres. simpl.
    unfold exec; simpl. rewrite HE; simpl. done.
Qed.

(** A store call of [load-messages] that throws is reported to the
    asking socket as [messages-error]; the store is only read. *)
Lemma load_messages_failure E w u sock cid rid e :
  (run E (load_messages_body u sock cid rid) w).1 = inl e →
  outbox (run E (load_messages u sock cid rid) w).2 =
    outbox w ++
    [mkEmission (to_socket sock) (messages_error "Failed to load messages")] ∧
  db (run E (load_messages u sock cid rid) w).2 = db w.
Proof.
  intros Hfail. unfold load_messages. rewrite run_try_catch, Hfail. simpl.
  destruct (run E (load_messages_body u sock cid rid) w) as [res w'] eqn:H.
  simpl in Hfail; subst res; simpl.
  unfold load_messages_body in H. task_simpl_in H.
  destruct cid as [id|]; simpl in H.
  - next_call E (tick w) H; [by inversion H|].
    destruct (findById id (db w)); simpl in H; [|discriminate].
    next_call E (S (tick w)) H; [by inversion H|discriminate].
  - destruct (truthy rid) as [r|]; simpl in H; [|discriminate].
    next_call E (tick w) H; [by inversion H|].
    destruct (findOne u r (db w)); simpl in H; [|discriminate].
    next_call E (S (tick w)) H; [by inversion H|discriminate].
Qed.




(** C5, as the handler has it.  For a conversation holding more than
    100 messages, [load-messages] returns 100 messages in ascending
    creation order, and they are the earliest 100: the first 100 of the
    conversation's messages sorted by creation time, so that every
    message left out was created no earlier than any message returned. *)
Theorem load_messages_earliest_window E w u sock cid rid c :
  no_faults E →
  resolve u cid rid (db w) = Some c →
  (100 < length (conversation_messages (c_id c) (db w)))%nat →
  ∃ msgs rest,
    outbox (run E (load_messages u sock cid rid) w).2 =
      outbox w ++
      [mkEmission (to_socket sock) (messages_loaded msgs (Some (c_id c)))] ∧
    msgs = take 100 (sort_by m_createdAt (conversation_messages (c_id c) (db w))) ∧
    length msgs = 100%nat ∧
    ascending msgs ∧
    msgs ++ rest ≡ₚ conversation_messages (c_id c) (db w) ∧
    ∀ a b, a ∈ msgs → b ∈ rest → m_createdAt a ≤ m_createdAt b.
Proof.
  intros HE Hres Hlen.
  destruct (load_messages_resolved E w u sock cid rid c HE Hres) as (_ & _ & Hout).
  exists (find_messages (c_id c) (db w)),
    (drop 100 (sort_by m_createdAt (conversation_messages (c_id c) (db w)))).
  split; [exact Hout|]. split; [reflexivity|].
  split; [rewrite length_find_messages; lia|].
  split; [apply find_messages_ascending|].
  rewrite find_messages_window, take_drop. split; [apply sort_by_perm|].
  intros a b. apply (StronglySorted_split (λ a b, m_createdAt a ≤ m_createdAt b)).
  rewrite take_drop. apply (sort_by_sorted m_createdAt).
Qed.

Lemma load_messages_earliest_window_witness :
  ∃ msgs,
    outbox (run env0 (load_messages "B" "s2" None (Some "A")) world101).2 =
      outbox world101 ++
      [mkEmission (to_socket "s2") (messages_loaded msgs (Some 0%nat))] ∧
    length msgs = 100%nat ∧
    ascending msgs.
Proof.
  destruct (load_messages_earliest_window env0 world101 "B" "s2"
              None (Some "A") conversation101)
    as (msgs & rest & Hout & _ & Hlen & Hasc & _).
  - exact no_faults_env0.
  - vm_compute. reflexivity.
  - vm_compute. lia.
  - exists msgs. split; [exact Hout|]. split; [exact Hlen|exact Hasc].
Defined.

(** C5, as stated, fails: after 101 messages from A to B, what
    [load-messages] returns to B is not the newest 100 of them: the
    message it leaves out is the newest one, not the oldest. *)
Lemma load_messages_newest_counterexample :
  let all := conversation_messages 0 (db world101) in
  let msgs := find_messages 0 (db world101) in
  length all = 101%nat ∧
  outbox (run env0 (load_messages "B" "s2" None (Some "A")) world101).2 =
    outbox world101 ++
    [mkEmission (to_socket "s2") (messages_loaded msgs (Some 0%nat))] ∧
  msgs ≠ newest_window 100 all ∧
  last all = Some (mkMessage 101 0 "A" "m" false 302 302) ∧
  mkMessage 101 0 "A" "m" false 302 302 ∉ msgs.
Proof.
  split; [vm_compute; reflexivity|].
  split; [vm_compute; reflexivity|]. split; [|split].
  - intros H. apply (f_equal head) in H. vm_compute in H. discriminate.
  - vm_compute. reflexivity.
  - assert (Hn : 101%nat ∉ m_id <$> find_messages 0 (db world101)).
    { apply (bool_decide_unpack _). vm_compute. exact I. }
    intros H. apply Hn. by apply (list_elem_of_fmap_2 m_id) in H.
Qed.

(** ** The conversation of a pair

    Sends between two identities [a] and [b], in either direction, each
    handled to its end before the next, with a store that answers. *)

Section Pair.

Context (E : Env) (a b : user_id).
Hypothesis HE : no_faults E.
Hypothesis Ha : a ≠ "".
Hypothesis Hb : b ≠ "".

(** The store after one such send. *)
Lemma send_between_store w x :
  between a b x →
  let w' := (run E (send_task x) w).2 in
  ∃ c cs mid tm ts,
    ((findOne a b (db w) = Some c ∧ cs = []) ∨
     (findOne a b (db w) = None ∧ cs = [c] ∧ c_id c = next_oid (db w) ∧
      all_of a b c)) ∧
    conversations (db w') =
      set_lastMessage (c_id c) (Some mid) ts <$> (conversations (db w) ++ cs) ∧
    messages (db w') =
      messages (db w) ++ [mkMessage mid (c_id c) (s_from x) (s_text x) false tm tm].
Proof.
  intros [Hdir Htxt]. unfold send_task.
  assert (Hto : s_to x ≠ "") by (destruct Hdir as [[_ ->]|[_ ->]]; done).
  pose proof (send_message_body_no_faults E w (s_from x) (s_socket x)
                (s_to x) (s_text x) HE Hto Htxt) as Hok.
  rewrite send_message_returns by done. simpl.
  destruct (run E (send_message_body (s_from x) (s_socket x)
                     (Some (s_to x)) (Some (s_text x))) w) as [res w'] eqn:Hrun.
  simpl in Hok; subst res; simpl.
  destruct (send_message_body_ok _ _ _ _ _ _ _ Hto Htxt Hrun)
    as (c & cs & tm & ts & Hc & Hcs & Hms & _).
  simpl in *.
  assert (Hfind : findOne (s_from x) (s_to x) (db w) = findOne a b (db w)).
  { destruct Hdir as [[-> ->]|[-> ->]]; [done|apply findOne_comm]. }
  rewrite Hfind in Hc.
  exists c, cs, (next_oid (db w) + length cs)%nat, tm, ts.
  repeat split; auto.
  destruct Hc as [?|(? & ? & ? & Hp & _)]; [by left|right].
  repeat split; auto; rewrite Hp;
    destruct Hdir as [[-> ->]|[-> ->]]; set_solver.
Qed.

(** A send creates the conversation of the pair when there is none and
    otherwise leaves the number of their conversations as it is. *)
Lemma send_between_count w x :
  between a b x →
  count_pair a b (db (run E (send_task x) w).2) =
    match findOne a b (db w) with
    | Some _ => count_pair a b (db w)
    | None => 1%nat
    end.
Proof.
  intros Hx.
  destruct (send_between_store w x Hx) as (c & cs & mid & tm & ts & Hc & Hcs & _).
  simpl in Hcs. unfold count_pair. rewrite Hcs, filter_all_of_saved.
  rewrite length_fmap, filter_app, length_app.
  destruct Hc as [[-> ->]|(Hf & -> & _ & Hall)].
  - rewrite filter_nil. simpl. lia.
  - rewrite Hf, (findOne_None_filter _ _ _ Hf), filter_cons_True by done.
    done.
Qed.

(** C2, as the handlers have it.  Two [send-message] events between [a]
    and [b], with no conversation stored for the pair, leave exactly one
    conversation for the pair when the second is handled after the first
    has finished. *)
Theorem sequential_sends_one_conversation w x1 x2 :
  between a b x1 → between a b x2 →
  count_pair a b (db w) = 0%nat →
  count_pair a b (db (run_all E [send_task x1; send_task x2] w)) = 1%nat.
Proof.
  intros H1 H2 H0. simpl.
  pose proof (send_between_count w x1 H1) as C1.
  apply findOne_None_count in H0. rewrite H0 in C1.
  rewrite send_between_count by done.
  destruct (findOne a b (db (run E (send_task x1) w).2)) eqn:Hf; [done|].
  apply findOne_None_count in Hf. congruence.
Qed.




End Pair.

Lemma between_A_B_hi : between "A" "B" (mkSend "A" "s1" "B" "hi").
Proof. split; [left; split; reflexivity|discriminate]. Qed.

Lemma between_A_B_yo : between "A" "B" (mkSend "B" "s2" "A" "yo").
Proof. split; [right; split; reflexivity|discriminate]. Qed.

Lemma sequential_sends_witness :
  count_pair "A" "B"
    (db (run_all env0 [send_task (mkSend "A" "s1" "B" "hi");
                       send_task (mkSend "B" "s2" "A" "yo")] world0)) = 1%nat.
Proof.
  apply (sequential_sends_one_conversation env0 "A" "B").
  - exact no_faults_env0.
  - discriminate.
  - discriminate.
  - exact between_A_B_hi.
  - exact between_A_B_yo.
  - reflexivity.
Defined.

(** C2, as stated, fails: the same two first messages, A to B and B to
    A, with both handlers in flight and the store answering them in
    turn.  Both handlers finish, and two conversations for the pair are
    stored. *)
Lemma racing_sends_counterexample :
  count_pair "A" "B" (db world0) = 0%nat ∧
  (interleave env0 [0; 1; 0; 1; 0; 1; 0; 1]%nat racing_pool world0).1
    = [Ret (); Ret ()] ∧
  count_pair "A" "B"
    (db (interleave env0 [0; 1; 0; 1; 0; 1; 0; 1]%nat racing_pool world0).2)
    = 2%nat.
Proof. repeat split; vm_compute; reflexivity. Qed.



(** ** [get-conversations] *)

(** The query returns, and then returns the empty list, exactly when
    the user takes part in no stored conversation. *)
Lemma find_conversations_spec u s :
  find_conversations u s =
    match conversations_of u s with
    | [] => inr []
    | _ :: _ => inl "MissingSchemaError"
    end.
Proof.
  unfold find_conversations, conversations_of.
  destruct (filter (λ c, u ∈ participants c) (conversations s)) as [|c l];
    [done|].
  pose proof (length_sort_by (λ c, - c_updatedAt c) (c :: l)) as Hlen.
  by destruct (sort_by (λ c, - c_updatedAt c) (c :: l)).
Qed.

(** The handler in full: one store call, a reply only when that call
    returns, and every error swallowed by the [catch]. *)
Lemma get_conversations_run E w u sock :
  run E (get_conversations u sock) w =
    (inr (),
     mkWorld (db w) (onlineUsers w) (rooms w)
       (outbox w ++
        match fails E (tick w), conversations_of u (db w) with
        | None, [] => [mkEmission (to_socket sock) (conversations_loaded [])]
        | _, _ => []
        end)
       (S (tick w))).
Proof.
  unfold get_conversations, get_conversations_body. task_simpl.
  unfold exec. destruct (fails E (tick w)) as [e|]; simpl.
  - by rewrite app_nil_r.
  - rewrite find_conversations_spec.
    destruct (conversations_of u (db w)); simpl; by rewrite ?app_nil_r.
Qed.

(** C3 at [get-conversations].  When the store call of the handler
    throws, the error is caught and the handler returns, but nothing is
    sent to the asking socket: the outbox is as it was. *)
Theorem get_conversations_failure_is_silent E w u sock e :
  fails E (tick w) = Some e →
  (run E (get_conversations u sock) w).1 = inr () ∧
  outbox (run E (get_conversations u sock) w).2 = outbox w.
Proof.
  intros H. unfold get_conversations, get_conversations_body. task_simpl.
  unfold exec. rewrite H. simpl. done.
Qed.

Lemma get_conversations_failure_witness :
  (run env_down (get_conversations "A" "s1") world_online).1 = inr () ∧
  outbox (run env_down (get_conversations "A" "s1") world_online).2 =
    outbox world_online.
Proof.
  apply (get_conversations_failure_is_silent env_down world_online "A" "s1"
           "store unreachable").
  reflexivity.
Defined.

(** ** Every world the service reaches

    The two assumptions made on worlds above, allocated ids and non-empty
    socket ids, hold initially and are kept by every handler.  A handler
    lets an error escape in one case only: when the event comes without
    the payload it destructures (or, for [check-online-status], without
    the list it iterates); it has then done nothing. *)

Lemma reads_only_bind {A B} (t : Task A) (f : A → Task B) :
  reads_only t → (∀ a, reads_only (f a)) → reads_only (bind t f).
Proof. induction 1; intros Hf; simpl; try constructor; auto. Qed.

Lemma reads_only_try_catch {A} (t : Task A) (h : exn → Task A) :
  reads_only t → (∀ e, reads_only (h e)) → reads_only (try_catch t h).
Proof. induction 1; intros Hh; simpl; try constructor; auto. Qed.

Lemma reads_only_await {R} (q : Query R) : query_reads q → reads_only (await q).
Proof. intros Hq. constructor; [done|]. intros [e|x]; constructor. Qed.

Lemma reads_only_perform {R} (e : Effect R) : effect_reads e → reads_only (perform e).
Proof. intros He. constructor; [done|]. intros r. constructor. Qed.

Lemma reads_only_run {A} E (t : Task A) w :
  reads_only t →
  db (run E t w).2 = db w ∧ onlineUsers (run E t w).2 = onlineUsers w.
Proof.
  intros H; revert w; induction H as [a|e|R e k He _ IH|R q k Hq _ IH];
    intros w; simpl; try done.
  - destruct (IH (effect e w).1 (effect e w).2) as [-> ->].
    by destruct e.
  - destruct (IH (exec E q w).1 (exec E q w).2) as [-> ->].
    unfold exec. destruct (fails E (tick w)); [done|]. by destruct q.
Qed.

Ltac reads_only_solve :=
  repeat first
    [ apply reads_only_try_catch | apply reads_only_bind
    | apply reads_only_await | apply reads_only_perform
    | apply reads_Ret | exact I | intro | case_match ].

Lemma load_messages_reads_only E w u sock cid rid :
  db (run E (load_messages u sock cid rid) w).2 = db w ∧
  onlineUsers (run E (load_messages u sock cid rid) w).2 = onlineUsers w.
Proof.
  apply reads_only_run. unfold load_messages, load_messages_body, mbind, Task_bind.
  reads_only_solve.
Qed.

Lemma get_conversations_reads_only E w u sock :
  db (run E (get_conversations u sock) w).2 = db w ∧
  onlineUsers (run E (get_conversations u sock) w).2 = onlineUsers w.
Proof.
  apply reads_only_run.
  unfold get_conversations, get_conversations_body, mbind, Task_bind.
  reads_only_solve.
Qed.

Lemma typing_reads_only E w u r :
  (run E (typing u r) w).1 = inr () ∧
  db (run E (typing u r) w).2 = db w ∧
  onlineUsers (run E (typing u r) w).2 = onlineUsers w.
Proof. unfold typing. task_simpl. by destruct (truthy (onlineUsers w !! r)). Qed.

Lemma stop_typing_reads_only E w u r :
  (run E (stop_typing u r) w).1 = inr () ∧
  db (run E (stop_typing u r) w).2 = db w ∧
  onlineUsers (run E (stop_typing u r) w).2 = onlineUsers w.
Proof. unfold stop_typing. task_simpl. by destruct (truthy (onlineUsers w !! r)). Qed.

Lemma check_online_status_reads_only E w sock ids :
  (run E (check_online_status sock ids) w).1 = inr () ∧
  db (run E (check_online_status sock ids) w).2 = db w ∧
  onlineUsers (run E (check_online_status sock ids) w).2 = onlineUsers w.
Proof.
  destruct (run_forEach_status E w ids ∅) as (st & Hrun & _).
  unfold check_online_status, mbind, Task_bind. by rewrite run_bind, Hrun.
Qed.

Lemma invariant_initial : invariant world0.
Proof. split; [apply ids_allocated_empty|apply handles_live_empty]. Qed.

Lemma handler_invariant E w u s ev :
  s ≠ "" → invariant w → invariant (run E (handler u s ev) w).2.
Proof.
  intros Hs [Hids Hlive]. unfold invariant.
  destruct ev as [|[[to message]|]|[[cid rid]|]| |[[[r|]]|]|[[[r|]]|]|[[[ids|]]|]|];
    simpl handler; try done.
  - split; [exact Hids|by apply connection_handles_live].
  - destruct (send_message_keeps E w u s to message Hids) as [? ->]. done.
  - destruct (load_messages_reads_only E w u s cid rid) as [-> ->]. done.
  - destruct (get_conversations_reads_only E w u s) as [-> ->]. done.
  - destruct (typing_reads_only E w u r) as (_ & -> & ->). done.
  - destruct (stop_typing_reads_only E w u r) as (_ & -> & ->). done.
  - destruct (check_online_status_reads_only E w s ids) as (_ & -> & ->). done.
  - split; [exact Hids|by apply disconnect_handles_live].
Qed.



(** * Further properties of the handlers *)

(** ** Connecting and disconnecting *)

(** X1.  A connection makes its socket the registry entry of its user,
    replacing any earlier one, and touches no other entry; it puts the
    socket in the room named after the user, announces [user-online] to
    everyone and makes no store call.  The [/health] count grows by one
    when the user had no entry and stays as it is otherwise: it counts
    users, not connections. *)
Theorem connection_registers E w u s :
  let w' := (run E (connection u s) w).2 in
  onlineUsers w' !! u = Some s ∧
  (∀ v, v ≠ u → onlineUsers w' !! v = onlineUsers w !! v) ∧
  rooms w' = rooms w ++ [(u, s)] ∧
  outbox w' = outbox w ++ [mkEmission io_all (user_online u)] ∧
  db w' = db w ∧ tick w' = tick w ∧
  health w' = match onlineUsers w !! u with
              | Some _ => health w
              | None => S (health w)
              end.
Proof.
  simpl. unfold health. simpl. repeat split.
  - by rewrite lookup_insert_eq.
  - intros v Hv. by rewrite lookup_insert_ne.
  - destruct (onlineUsers w !! u) as [old|] eqn:Hu.
    + apply map_size_insert_Some. by eexists.
    + by apply map_size_insert_None.
Qed.

(** X2.  For a user with no entry, connecting and then disconnecting
    gives back the registry as it was, and with it the [/health] count;
    two broadcasts went out, [user-online] then [user-offline]. *)
Theorem connect_disconnect_round_trip E w u s :
  onlineUsers w !! u = None →
  let w' := run_all E [connection u s; disconnect u s] w in
  onlineUsers w' = onlineUsers w ∧
  health w' = health w ∧
  outbox w' = outbox w ++ [mkEmission io_all (user_online u);
                           mkEmission io_all (user_offline u)].
Proof.
  intros Hu. simpl. unfold health. simpl.
  rewrite delete_insert_eq, delete_id by done.
  repeat split. by rewrite <- app_assoc.
Qed.

Lemma connect_disconnect_round_trip_witness :
  onlineUsers (run_all env0 [connection "C" "s3"; disconnect "C" "s3"] world_online)
    = onlineUsers world_online.
Proof.
  apply (connect_disconnect_round_trip env0 world_online "C" "s3").
  vm_compute. reflexivity.
Defined.

(** X3.  The answer of [check-online-status] follows the life of a
    connection: for a user whose id can be a key of the reply, the
    status asked after the connection is [true], and the status asked
    after the disconnect that follows is [false]. *)
Theorem presence_round_trip E w u s asker :
  u ≠ "__proto__" →
  let w1 := (run E (connection u s) w).2 in
  let w2 := (run E (disconnect u s) w1).2 in
  ∃ st1 st2,
    outbox (run E (check_online_status asker [u]) w1).2 =
      outbox w1 ++ [mkEmission (to_socket asker) (online_statuses st1)] ∧
    st1 !! u = Some true ∧
    outbox (run E (check_online_status asker [u]) w2).2 =
      outbox w2 ++ [mkEmission (to_socket asker) (online_statuses st2)] ∧
    st2 !! u = Some false.
Proof.
  intros Hu w1 w2.
  destruct (run_forEach_status E w1 [u] ∅) as (st1 & Hrun1 & Hin1 & _).
  destruct (run_forEach_status E w2 [u] ∅) as (st2 & Hrun2 & Hin2 & _).
  exists st1, st2. unfold check_online_status, mbind, Task_bind.
  rewrite !run_bind, Hrun1, Hrun2. simpl. repeat split.
  - rewrite Hin1; [|apply list_elem_of_here|done]. subst w1; simpl.
    rewrite lookup_insert_eq. by rewrite bool_decide_eq_true_2.
  - rewrite Hin2; [|apply list_elem_of_here|done]. subst w2 w1; simpl.
    rewrite lookup_delete_eq. rewrite bool_decide_eq_false_2; [done|].
    by intros [? ?].
Qed.

Lemma presence_round_trip_witness :
  ∃ st1 st2,
    outbox (run env0 (check_online_status "s2" ["A"])
              (run env0 (connection "A" "s1") world0).2).2 =
      outbox (run env0 (connection "A" "s1") world0).2 ++
      [mkEmission (to_socket "s2") (online_statuses st1)] ∧
    st1 !! "A" = Some true ∧
    outbox (run env0 (check_online_status "s2" ["A"])
              (run env0 (disconnect "A" "s1")
                 (run env0 (connection "A" "s1") world0).2).2).2 =
      outbox (run env0 (disconnect "A" "s1")
                (run env0 (connection "A" "s1") world0).2).2 ++
      [mkEmission (to_socket "s2") (online_statuses st2)] ∧
    st2 !! "A" = Some false.
Proof.
  apply (presence_round_trip env0 world0 "A" "s1" "s2"). discriminate.
Defined.

(** ** Typing notices *)

(** X4.  [typing] and [stop-typing] make no store call and change
    nothing but the outbox: when the registry holds a socket for the
    recipient, that socket alone gets [user-typing] (or
    [user-stop-typing]) with the sender's id; when it holds none,
    nothing at all is emitted, to the sender either. *)
Theorem typing_relay E w u r :
  handles_live (onlineUsers w) →
  run E (typing u r) w =
    (inr (), mkWorld (db w) (onlineUsers w) (rooms w)
               (outbox w ++ match onlineUsers w !! r with
                            | Some sid => [mkEmission (io_to sid) (user_typing u)]
                            | None => []
                            end)
               (tick w)) ∧
  run E (stop_typing u r) w =
    (inr (), mkWorld (db w) (onlineUsers w) (rooms w)
               (outbox w ++ match onlineUsers w !! r with
                            | Some sid => [mkEmission (io_to sid) (user_stop_typing u)]
                            | None => []
                            end)
               (tick w)).
Proof.
  intros Hlive. unfold typing, stop_typing. task_simpl.
  rewrite (handles_live_truthy _ r Hlive).
  destruct (onlineUsers w !! r); simpl; rewrite ?app_nil_r; by destruct w.
Qed.

Lemma typing_relay_witness :
  (run env0 (typing "A" "B") world_online).1 = inr () ∧
  outbox (run env0 (typing "A" "B") world_online).2 =
    outbox world_online ++ [mkEmission (io_to "s2") (user_typing "A")].
Proof.
  destruct (typing_relay env0 world_online "A" "B" world_online_handles_live)
    as [H _].
  rewrite H. split; reflexivity.
Defined.

(** ** The handshake *)

(** The middleware rejects with one of two fixed messages and then
    leaves the socket as it was, its [user] field included: [Noo token
    provided] exactly when the token is missing or empty, [Unauthorized]
    exactly when [jwt.verify] throws (whatever it throws is not passed
    on).  It accepts exactly when [jwt.verify] returns, and then the
    [user] field is the payload returned and nothing else changed. *)
Lemma verifyJWT_outcomes jwt secret socket :
  match verifyJWT jwt secret socket with
  | (socket', next_error msg) =>
      socket' = socket ∧
      ((truthy (auth_token socket) = None ∧ msg = "Noo token provided") ∨
       (∃ token e, truthy (auth_token socket) = Some token ∧
                   jwt token secret = inl e ∧ msg = "Unauthorized"))
  | (socket', next_ok) =>
      ∃ token decoded,
        truthy (auth_token socket) = Some token ∧
        jwt token secret = inr decoded ∧
        sock_user socket' = Some decoded ∧
        sock_id socket' = sock_id socket ∧
        auth_token socket' = auth_token socket
  end.
Proof.
  unfold verifyJWT.
  destruct (truthy (auth_token socket)) as [token|] eqn:Ht; [|by split; [|left]].
  destruct (jwt token secret) as [e|decoded] eqn:Hv.
  - split; [done|]. right. by exists token, e.
  - by exists token, decoded.
Qed.

(** X5.  Authentication fails closed: a connecting socket changes the
    world (registry, rooms, broadcasts) only if it presented a token
    that [jwt.verify] accepted under the secret and whose payload has an
    [_id]; the registry then maps that [_id] to this socket. *)
Theorem handshake_fail_closed jwt secret socket E w :
  (run E (handshake jwt secret socket) w).2 ≠ w →
  ∃ token decoded userId,
    truthy (auth_token socket) = Some token ∧
    jwt token secret = inr decoded ∧
    d_id decoded = Some userId ∧
    onlineUsers (run E (handshake jwt secret socket) w).2 !! userId
      = Some (sock_id socket) ∧
    outbox (run E (handshake jwt secret socket) w).2 =
      outbox w ++ [mkEmission io_all (user_online userId)].
Proof.
  unfold handshake, verifyJWT, on_connection_listener.
  destruct (truthy (auth_token socket)) as [token|] eqn:Ht; [|done].
  destruct (jwt token secret) as [e|decoded] eqn:Hv; [done|]. simpl.
  destruct (d_id decoded) as [userId|] eqn:Hid; [|done]. simpl. intros _.
  exists token, decoded, userId. repeat split; auto.
  by rewrite lookup_insert_eq.
Qed.

Lemma handshake_fail_closed_witness :
  ∃ token decoded userId,
    truthy (Some "good") = Some token ∧
    jwt_example token (Some "secret") = inr decoded ∧
    d_id decoded = Some userId ∧
    onlineUsers (run env0 (handshake jwt_example (Some "secret")
                             (mkSocket "s1" (Some "good") None)) world0).2
      !! userId = Some "s1" ∧
    outbox (run env0 (handshake jwt_example (Some "secret")
                        (mkSocket "s1" (Some "good") None)) world0).2 =
      outbox world0 ++ [mkEmission io_all (user_online userId)].
Proof.
  apply (handshake_fail_closed jwt_example (Some "secret")
           (mkSocket "s1" (Some "good") None) env0 world0).
  vm_compute. intros H. discriminate H.
Defined.

(** X6.  A token that verifies but whose payload carries no [_id] gets
    past the middleware, and the connection listener then throws while
    computing the user id: the error escapes the listener, and nothing
    was registered, joined or announced. *)
Theorem handshake_without_id_throws jwt secret socket token decoded E w :
  truthy (auth_token socket) = Some token →
  jwt token secret = inr decoded →
  d_id decoded = None →
  (verifyJWT jwt secret socket).2 = next_ok ∧
  run E (handshake jwt secret socket) w = (inl "TypeError", w).
Proof.
  intros Ht Hv Hid. unfold handshake, verifyJWT, on_connection_listener.
  rewrite Ht, Hv. simpl. by rewrite Hid.
Qed.

Lemma handshake_without_id_witness :
  (verifyJWT jwt_example None (mkSocket "s9" (Some "anonymous") None)).2 = next_ok ∧
  run env0 (handshake jwt_example None (mkSocket "s9" (Some "anonymous") None))
    world_online = (inl "TypeError", world_online).
Proof.
  apply (handshake_without_id_throws jwt_example None
           (mkSocket "s9" (Some "anonymous") None) "anonymous" (mkDecoded None)).
  - reflexivity.
  - reflexivity.
  - reflexivity.
Defined.

(** ** What a send leaves in the store, whatever the store does *)

(** A valid send ends in one of two ways.  It fails: the sender gets
    [message-error] and nothing else is emitted, no stored record is
    changed, and at most a new conversation and a new message are left.
    Or it goes through: one message is stored, the last-message pointer
    of its conversation is moved to it, and [message-sent] is emitted,
    followed by the delivery if the registry holds the recipient. *)
Lemma send_message_shape E w u sock r txt :
  r ≠ "" → txt ≠ "" →
  ∃ cs ms upd evs,
    let w' := (run E (send_message u sock (Some r) (Some txt)) w).2 in
    let mid := (next_oid (db w) + length cs)%nat in
    conversations (db w') = upd <$> (conversations (db w) ++ cs) ∧
    messages (db w') = messages (db w) ++ ms ∧
    next_oid (db w') = (next_oid (db w) + length cs + length ms)%nat ∧
    users (db w') = users (db w) ∧
    outbox w' = outbox w ++ evs ∧
    (cs = [] ∨
     ∃ t, findOne u r (db w) = None ∧
          cs = [mkConversation (next_oid (db w)) [u; r] None t t]) ∧
    ((∃ e, evs = [mkEmission (to_socket sock)
                    (message_error "Failed to send message" e)] ∧
           upd = id ∧
           (ms = [] ∨
            ∃ c tm, c ∈ conversations (db w) ++ cs ∧ all_of u r c ∧
                    ms = [mkMessage mid (c_id c) u txt false tm tm])) ∨
     (∃ c tm ts,
        c ∈ conversations (db w) ++ cs ∧ all_of u r c ∧
        ms = [mkMessage mid (c_id c) u txt false tm tm] ∧
        upd = set_lastMessage (c_id c) (Some mid) ts ∧
        evs = mkEmission (to_socket sock) (message_sent mid (c_id c) tm) ::
              match truthy (onlineUsers w !! r) with
              | Some sid =>
                  [mkEmission (io_to sid)
                     (receive_message u txt mid (c_id c) tm)]
              | None => []
              end)).
Proof.
  intros Hr Ht. unfold send_message, send_message_body.
  rewrite !truthy_ne by done.
  match goal with
  | |- context [run E ?t w] => destruct (run E t w) as [res w'] eqn:H
  end.
  simpl. task_simpl_in H.
  assert (Hnew : ∀ t, all_of u r (mkConversation (next_oid (db w)) [u; r] None t t)).
  { intros t. split; simpl; set_solver. }
  next_call E (tick w) H.
  { inversion H; subst; simpl. eexists [], [], id, [_]. simpl.
    rewrite list_fmap_id, !app_nil_r, !Nat.add_0_r.
    repeat split; auto. left. eexists. repeat split; auto. }
  destruct (findOne u r (db w)) as [c|] eqn:Hf; simpl in H.
  - assert (c ∈ conversations (db w) ∧ all_of u r c) as [Hin Hall].
    { unfold findOne in Hf. apply head_Some_elem_of in Hf.
      apply list_elem_of_filter in Hf. tauto. }
    pose proof Hall as [Hpu Hpr].
    next_call E (S (tick w)) H.
    { inversion H; subst; simpl. eexists [], [], id, [_]. simpl.
      rewrite list_fmap_id, !app_nil_r, !Nat.add_0_r.
      repeat split; auto. left. eexists. repeat split; auto. }
    next_call E (S (S (tick w))) H.
    { inversion H; subst; simpl. eexists [], [_], id, [_]. simpl.
      rewrite list_fmap_id, !app_nil_r, !Nat.add_0_r.
      repeat split; auto; [lia|]. left. eexists. repeat split; auto.
      right. exists c. eexists. repeat split; auto. }
    exists [], [mkMessage (next_oid (db w)) (c_id c) u txt false
                  (now E (S (tick w))) (now E (S (tick w)))],
      (set_lastMessage (c_id c) (Some (next_oid (db w)))
         (now E (S (S (tick w))))),
      (mkEmission (to_socket sock)
         (message_sent (next_oid (db w)) (c_id c) (now E (S (tick w)))) ::
       match truthy (onlineUsers w !! r) with
       | Some sid =>
           [mkEmission (io_to sid)
              (receive_message u txt (next_oid (db w)) (c_id c)
                 (now E (S (tick w))))]
       | None => []
       end).
    simpl. rewrite !app_nil_r, !Nat.add_0_r.
    assert (db w' = save_conversation
                      (mkConversation (c_id c) (participants c)
                         (Some (next_oid (db w))) (c_createdAt c) (c_updatedAt c))
                      (now E (S (S (tick w))))
                      (mkStore (users (db w)) (conversations (db w))
                         (messages (db w) ++
                          [mkMessage (next_oid (db w)) (c_id c) u txt false
                             (now E (S (tick w))) (now E (S (tick w)))])
                         (S (next_oid (db w)))) ∧
            outbox w' = outbox w ++
              mkEmission (to_socket sock)
                (message_sent (next_oid (db w)) (c_id c) (now E (S (tick w)))) ::
              match truthy (onlineUsers w !! r) with
              | Some sid =>
                  [mkEmission (io_to sid)
                     (receive_message u txt (next_oid (db w)) (c_id c)
                        (now E (S (tick w))))]
              | None => []
              end) as [-> ->].
    { destruct (truthy (onlineUsers w !! r)); simpl in H; inversion H; subst;
        simpl; by rewrite <- ?app_assoc. }
    simpl. repeat split; auto; [lia|]. right.
    exists c, (now E (S (tick w))), (now E (S (S (tick w)))).
    repeat split; auto.
  - next_call E (S (tick w)) H.
    { inversion H; subst; simpl. eexists [], [], id, [_]. simpl.
      rewrite list_fmap_id, !app_nil_r, !Nat.add_0_r.
      repeat split; auto. left. eexists. repeat split; auto. }
    next_call E (S (S (tick w))) H.
    { inversion H; subst; simpl. eexists [_], [], id, [_]. simpl.
      rewrite list_fmap_id, !app_nil_r, !Nat.add_0_r.
      repeat split; auto; [lia|right; eexists; split; eauto|].
      left. eexists. repeat split; auto. }
    next_call E (S (S (S (tick w)))) H.
    { inversion H; subst; simpl. eexists [_], [_], id, [_]. simpl.
      rewrite list_fmap_id.
      repeat split; auto; [lia|right; eexists; split; eauto|].
      left. eexists. repeat split; auto. right.
      eexists (mkConversation _ _ _ _ _), _.
      split; [apply elem_of_app; right; apply list_elem_of_here|].
      split; [apply Hnew|]. simpl.
      by replace (next_oid (db w) + 1)%nat with (S (next_oid (db w))) by lia. }
    set (c := mkConversation (next_oid (db w)) [u; r] None
                (now E (S (tick w))) (now E (S (tick w)))) in *.
    exists [c], [mkMessage (S (next_oid (db w))) (next_oid (db w)) u txt false
                   (now E (S (S (tick w)))) (now E (S (S (tick w))))],
      (set_lastMessage (next_oid (db w)) (Some (S (next_oid (db w))))
         (now E (S (S (S (tick w)))))),
      (mkEmission (to_socket sock)
         (message_sent (S (next_oid (db w))) (next_oid (db w))
            (now E (S (S (tick w))))) ::
       match truthy (onlineUsers w !! r) with
       | Some sid =>
           [mkEmission (io_to sid)
              (receive_message u txt (S (next_oid (db w))) (next_oid (db w))
                 (now E (S (S (tick w)))))]
       | None => []
       end).
    simpl.
    assert (db w' = save_conversation
                      (mkConversation (next_oid (db w)) [u; r]
                         (Some (S (next_oid (db w))))
                         (now E (S (tick w))) (now E (S (tick w))))
                      (now E (S (S (S (tick w)))))
                      (mkStore (users (db w)) (conversations (db w) ++ [c])
                         (messages (db w) ++
                          [mkMessage (S (next_oid (db w))) (next_oid (db w)) u txt
                             false (now E (S (S (tick w)))) (now E (S (S (tick w))))])
                         (S (S (next_oid (db w))))) ∧
            outbox w' = outbox w ++
              mkEmission (to_socket sock)
                (message_sent (S (next_oid (db w))) (next_oid (db w))
                   (now E (S (S (tick w))))) ::
              match truthy (onlineUsers w !! r) with
              | Some sid =>
                  [mkEmission (io_to sid)
                     (receive_message u txt (S (next_oid (db w)))
                        (next_oid (db w)) (now E (S (S (tick w)))))]
              | None => []
              end) as [-> ->].
    { destruct (truthy (onlineUsers w !! r)); simpl in H; inversion H; subst;
        simpl; by rewrite <- ?app_assoc. }
    simpl. replace (next_oid (db w) + 1)%nat with (S (next_oid (db w))) by lia.
    repeat split; auto; [lia|right; eexists; split; eauto|]. right.
    exists c, (now E (S (S (tick w)))), (now E (S (S (S (tick w))))).
    split; [apply elem_of_app; right; apply list_elem_of_here|].
    split; [apply Hnew|]. repeat split; reflexivity.
Qed.

(** X7.  Whatever the store does, a valid [send-message] is answered to
    the sender's socket exactly once, by [message-sent] or by
    [message-error] and never by both; a [receive-message] is emitted
    only after a [message-sent], for the same message, and only to the
    socket the registry holds for the recipient. *)
Theorem send_message_answered_once E w u sock r txt :
  r ≠ "" → txt ≠ "" →
  ∃ ack rest,
    outbox (run E (send_message u sock (Some r) (Some txt)) w).2 =
      outbox w ++ mkEmission (to_socket sock) ack :: rest ∧
    ((∃ e, ack = message_error "Failed to send message" e ∧ rest = []) ∨
     (∃ mid cid tm,
        ack = message_sent mid cid tm ∧
        (rest = [] ∨
         ∃ sid, onlineUsers w !! r = Some sid ∧
                rest = [mkEmission (io_to sid)
                          (receive_message u txt mid cid tm)]))).
Proof.
  intros Hr Ht.
  destruct (send_message_shape E w u sock r txt Hr Ht)
    as (cs & ms & upd & evs & _ & _ & _ & _ & Hout & _ & Hend).
  simpl in *. rewrite Hout.
  destruct Hend as [(e & -> & _)|(c & tm & ts & _ & _ & _ & _ & ->)].
  - eexists _, []. split; [done|]. left. by exists e.
  - eexists _, _. split; [done|]. right. do 3 eexists. split; [done|].
    destruct (onlineUsers w !! r) as [[|a sid]|]; simpl; auto.
    right. eexists. split; done.
Qed.

Lemma send_message_answered_once_witness :
  ∃ ack rest,
    outbox (run env_save_fails (send_message "A" "s1" (Some "B") (Some "hi"))
              world_online).2 =
      outbox world_online ++ mkEmission (to_socket "s1") ack :: rest ∧
    ((∃ e, ack = message_error "Failed to send message" e ∧ rest = []) ∨
     (∃ mid cid tm,
        ack = message_sent mid cid tm ∧
        (rest = [] ∨
         ∃ sid, onlineUsers world_online !! "B" = Some sid ∧
                rest = [mkEmission (io_to sid)
                          (receive_message "A" "hi" mid cid tm)]))).
Proof.
  apply (send_message_answered_once env_save_fails world_online "A" "s1" "B" "hi");
    discriminate.
Defined.

(** ** The store stays sound *)

Lemma store_sound_send E w u sock to message :
  store_sound (db w) →
  store_sound (db (run E (send_message u sock to message) w).2).
Proof.
  intros Hs.
  destruct (truthy to) as [r|] eqn:Hto; cycle 1.
  { unfold send_message, send_message_body. by rewrite Hto. }
  destruct (truthy message) as [txt|] eqn:Hmsg; cycle 1.
  { unfold send_message, send_message_body. by rewrite Hto, Hmsg. }
  assert (to = Some r ∧ r ≠ "") as [-> Hr]
    by (destruct to as [[|]|]; inversion Hto; done).
  assert (message = Some txt ∧ txt ≠ "") as [-> Ht]
    by (destruct message as [[|]|]; inversion Hmsg; done).
  destruct (send_message_shape E w u sock r txt Hr Ht)
    as (cs & ms & upd & evs & Hcs & Hms & Hn & _ & _ & Hnew & Hend).
  simpl in *.
  destruct Hs as ((Hc & Hm) & Hmi & Hfiled & Hptr & Hpair).
  unfold message_ids_allocated, messages_filed, pointers_valid, pairs_only in *.
  rewrite Forall_forall in Hc. rewrite Forall_forall in Hm.
  rewrite Forall_forall in Hmi. rewrite Forall_forall in Hfiled.
  rewrite Forall_forall in Hptr. rewrite Forall_forall in Hpair.
  (* what the conversations listed in [cs] look like *)
  assert (Hcs_new : ∀ d, d ∈ cs → c_id d = next_oid (db w) ∧
                          lastMessage d = None ∧ participants d = [u; r] ∧
                          length cs = 1%nat).
  { intros d Hd. destruct Hnew as [->|(t & _ & ->)]; [by apply elem_of_nil in Hd|].
    apply list_elem_of_singleton in Hd as ->. done. }
  assert (Hid_lt : ∀ d, d ∈ conversations (db w) ++ cs →
                     (c_id d < next_oid (db w) + length cs)%nat).
  { intros d [Hd|Hd]%elem_of_app; [apply Hc in Hd; lia|].
    destruct (Hcs_new d Hd) as (-> & _ & _ & ->). lia. }
  (* what the messages listed in [ms] look like *)
  assert (Hms_new : ∀ m, m ∈ ms →
            m_id m = (next_oid (db w) + length cs)%nat ∧ length ms = 1%nat ∧
            ∃ c, c ∈ conversations (db w) ++ cs ∧ c_id c = conversationId m).
  { intros m Hin.
    destruct Hend as [(e & _ & _ & [->|(c & tm & Hcin & _ & ->)])
                     |(c & tm & ts & Hcin & _ & -> & _)];
      [by apply elem_of_nil in Hin| |];
      apply list_elem_of_singleton in Hin as ->; simpl; eauto. }
  (* how [upd] acts *)
  assert (Hupd : ∀ d, c_id (upd d) = c_id d ∧ participants (upd d) = participants d ∧
            (lastMessage (upd d) = lastMessage d ∨
             ∃ m, m ∈ ms ∧ lastMessage (upd d) = Some (m_id m) ∧
                  conversationId m = c_id d)).
  { intros d.
    destruct Hend as [(e & _ & -> & _)|(c & tm & ts & _ & _ & -> & -> & _)];
      [by repeat split; auto|].
    rewrite set_lastMessage_id, set_lastMessage_participants.
    repeat split. unfold set_lastMessage. case_decide as Hd; [|by left].
    right. eexists. split; [apply list_elem_of_here|]. done. }
  repeat split;
    unfold message_ids_allocated, messages_filed, pointers_valid, pairs_only;
    rewrite Forall_forall.
  - intros d' Hd'. rewrite Hcs in Hd'. apply list_elem_of_fmap in Hd' as (d & -> & Hd).
    destruct (Hupd d) as (-> & _). rewrite Hn. apply Hid_lt in Hd. lia.
  - intros m Hin. rewrite Hms in Hin. rewrite Hn.
    apply elem_of_app in Hin as [Hin|Hin]; [apply Hm in Hin; lia|].
    destruct (Hms_new m Hin) as (_ & -> & c & Hcin & <-).
    apply Hid_lt in Hcin. lia.
  - intros m Hin. rewrite Hms in Hin. rewrite Hn.
    apply elem_of_app in Hin as [Hin|Hin]; [apply Hmi in Hin; lia|].
    destruct (Hms_new m Hin) as (-> & -> & _). lia.
  - intros m Hin. rewrite Hms in Hin. rewrite Hcs.
    assert (∃ c, c ∈ conversations (db w) ++ cs ∧ c_id c = conversationId m)
      as (c & Hcin & Hcid).
    { apply elem_of_app in Hin as [Hin|Hin].
      - destruct (Hfiled m Hin) as (c & ? & ?). exists c. split; [|done].
        apply elem_of_app. by left.
      - by destruct (Hms_new m Hin) as (_ & _ & ?). }
    exists (upd c). split; [by apply list_elem_of_fmap_2|].
    by destruct (Hupd c) as (-> & _).
  - intros d' Hd' mid Hlast. rewrite Hcs in Hd'.
    apply list_elem_of_fmap in Hd' as (d & -> & Hd).
    destruct (Hupd d) as (Hid & _ & [Hsame|(m & Hin & Hnew_last & Hconv)]).
    + rewrite Hsame in Hlast. apply elem_of_app in Hd as [Hd|Hd].
      * destruct (Hptr d Hd mid Hlast) as (m & Hin & ? & ?).
        exists m. rewrite Hms, Hid. split; [|done]. apply elem_of_app. by left.
      * destruct (Hcs_new d Hd) as (_ & Hnone & _). congruence.
    + rewrite Hnew_last in Hlast. injection Hlast as <-.
      exists m. rewrite Hms, Hid. split; [|done]. apply elem_of_app. by right.
  - intros d' Hd'. rewrite Hcs in Hd'.
    apply list_elem_of_fmap in Hd' as (d & -> & Hd).
    destruct (Hupd d) as (_ & -> & _). apply elem_of_app in Hd as [Hd|Hd].
    + by apply Hpair.
    + by destruct (Hcs_new d Hd) as (_ & _ & -> & _).
Qed.

Lemma store_sound_handler E w u s ev :
  store_sound (db w) → store_sound (db (run E (handler u s ev) w).2).
Proof.
  intros Hs.
  destruct ev as [|[[to message]|]|[[cid rid]|]| |[[[r|]]|]|[[[r|]]|]|[[[ids|]]|]|];
    simpl handler; try done.
  - by apply store_sound_send.
  - by destruct (load_messages_reads_only E w u s cid rid) as [-> _].
  - by destruct (get_conversations_reads_only E w u s) as [-> _].
  - by destruct (typing_reads_only E w u r) as (_ & -> & _).
  - by destruct (stop_typing_reads_only E w u r) as (_ & -> & _).
  - by destruct (check_online_status_reads_only E w s ids) as (_ & -> & _).
Qed.

(** X8.  In every world the service reaches from its start by handling
    events one after the other, whatever events arrive on whatever
    connections and whichever store calls fail, the store is sound:
    every message belongs to a stored conversation, every last-message
    pointer designates a stored message of that very conversation, and
    every conversation has two participants. *)
Theorem reachable_store_sound E evs :
  let s := db (run_events E evs world0) in
  messages_filed s ∧ pointers_valid s ∧ pairs_only s.
Proof.
  assert (∀ w, store_sound (db w) → store_sound (db (run_events E evs w))) as H.
  { induction evs as [|[[u s] ev] evs IH]; intros w Hw; [done|].
    simpl. apply IH. by apply store_sound_handler. }
  destruct (H world0) as (_ & _ & ? & ? & ?); [|done].
  repeat split; constructor.
Qed.

(** ** The store only grows *)

Lemma grows_refl s : grows s s.
Proof. repeat split; reflexivity. Qed.

Lemma grows_trans s1 s2 s3 : grows s1 s2 → grows s2 s3 → grows s1 s3.
Proof.
  intros (Hm1 & Hc1 & Hu1) (Hm2 & Hc2 & Hu2). repeat split.
  - by etrans.
  - by etrans.
  - congruence.
Qed.

Lemma identity_of_saved id last t (l : list Conversation) :
  identity_of <$> (set_lastMessage id last t <$> l) = identity_of <$> l.
Proof.
  rewrite <- list_fmap_compose. apply list_fmap_ext. intros i c _.
  unfold compose, identity_of, set_lastMessage. by case_decide.
Qed.

Lemma exec_grows {R} E (q : Query R) w : grows (db w) (db (exec E q w).2).
Proof.
  unfold exec. destruct (fails E (tick w)); [apply grows_refl|].
  destruct q; simpl; try apply grows_refl; repeat split; simpl; try reflexivity.
  - rewrite fmap_app. by apply prefix_app_r.
  - by apply prefix_app_r.
  - by rewrite identity_of_saved.
Qed.

Lemma effect_db {R} (e : Effect R) w : db (effect e w).2 = db w.
Proof. by destruct e. Qed.

Lemma run_grows {A} E (t : Task A) w : grows (db w) (db (run E t w).2).
Proof.
  revert w; induction t as [a|e|R e k IH|R q k IH]; intros w; simpl;
    try apply grows_refl.
  - rewrite <- (effect_db e w) at 1. apply IH.
  - eapply grows_trans; [apply (exec_grows E q w)|apply IH].
Qed.

Lemma settle_db {A} (t : Task A) w : db (settle t w).2 = db w.
Proof.
  revert w; induction t as [a|e|R e k IH|R q k IH]; intros w; simpl; try done.
  by rewrite IH, effect_db.
Qed.

Lemma resume_grows {A} E (t : Task A) w : grows (db w) (db (resume E t w).2).
Proof.
  destruct t as [a|e|R e k|R q k]; simpl; try apply grows_refl.
  - rewrite settle_db, effect_db. apply grows_refl.
  - rewrite settle_db. apply (exec_grows E q w).
Qed.

(** X9.  The handlers never delete or rewrite what is stored: across
    any handler run to its end, and across any interleaving of any
    handlers in flight, every stored message is still there, unchanged
    and in the same place, every stored conversation is still there with
    the same participants, and the user collection is not written. *)
Theorem store_only_grows E :
  (∀ u s ev w, grows (db w) (db (run E (handler u s ev) w).2)) ∧
  (∀ sched pool w, grows (db w) (db (interleave E sched pool w).2)).
Proof.
  split; [intros; apply run_grows|].
  induction sched as [|i sched IH]; intros pool w; simpl; [apply grows_refl|].
  destruct (pool !! i) as [t|]; [|apply IH].
  eapply grows_trans; [apply (resume_grows E t w)|apply IH].
Qed.

(** ** Who changes the presence registry *)

Lemma presence_free_bind {A B} (t : Task A) (f : A → Task B) :
  presence_free t → (∀ a, presence_free (f a)) → presence_free (bind t f).
Proof. induction 1; intros Hf; simpl; try constructor; auto. Qed.

Lemma presence_free_try_catch {A} (t : Task A) (h : exn → Task A) :
  presence_free t → (∀ e, presence_free (h e)) → presence_free (try_catch t h).
Proof. induction 1; intros Hh; simpl; try constructor; auto. Qed.

Lemma presence_free_await {R} (q : Query R) : presence_free (await q).
Proof. constructor. intros [e|x]; constructor. Qed.

Lemma presence_free_perform {R} (e : Effect R) :
  effect_reads e → presence_free (perform e).
Proof. intros He. constructor; [done|]. intros r. constructor. Qed.

Lemma presence_free_forEach ids acc : presence_free (forEach_status ids acc).
Proof.
  revert acc; induction ids as [|id ids IH]; intros acc; simpl; [constructor|].
  constructor; [done|]. intros b. apply IH.
Qed.

Ltac presence_free_solve :=
  repeat first
    [ apply presence_free_try_catch | apply presence_free_bind
    | apply presence_free_await | apply presence_free_perform
    | apply presence_free_forEach | apply pfree_Ret | apply pfree_Raise
    | exact I | intro | case_match ].

Lemma presence_free_handler u s ev :
  ev ≠ on_connection → ev ≠ on_disconnect → presence_free (handler u s ev).
Proof.
  intros Hc Hd. destruct ev; try done; simpl; unfold destructure;
    unfold send_message, send_message_body, load_messages, load_messages_body,
      get_conversations, get_conversations_body, typing, stop_typing,
      check_online_status, mbind, Task_bind;
    presence_free_solve.
Qed.

Lemma exec_presence {R} E (q : Query R) w :
  onlineUsers (exec E q w).2 = onlineUsers w ∧ rooms (exec E q w).2 = rooms w.
Proof. unfold exec. by destruct (fails E (tick w)). Qed.

Lemma effect_reads_presence {R} (e : Effect R) w :
  effect_reads e →
  onlineUsers (effect e w).2 = onlineUsers w ∧ rooms (effect e w).2 = rooms w.
Proof. by destruct e. Qed.

Lemma presence_free_run {A} E (t : Task A) w :
  presence_free t →
  onlineUsers (run E t w).2 = onlineUsers w ∧ rooms (run E t w).2 = rooms w.
Proof.
  intros H; revert w; induction H as [a|e|R e k He _ IH|R q k _ IH];
    intros w; simpl; try done.
  - destruct (IH (effect e w).1 (effect e w).2) as [-> ->].
    by apply effect_reads_presence.
  - destruct (IH (exec E q w).1 (exec E q w).2) as [-> ->].
    apply exec_presence.
Qed.

Lemma presence_free_settle {A} (t : Task A) w :
  presence_free t →
  presence_free (settle t w).1 ∧
  onlineUsers (settle t w).2 = onlineUsers w ∧ rooms (settle t w).2 = rooms w.
Proof.
  intros H; revert w; induction H as [a|e|R e k He Hk IH|R q k Hk _];
    intros w; simpl; try (split; [by constructor|done]).
  destruct (IH (effect e w).1 (effect e w).2) as (? & -> & ->).
  split; [done|]. by apply effect_reads_presence.
Qed.

Lemma presence_free_resume {A} E (t : Task A) w :
  presence_free t →
  presence_free (resume E t w).1 ∧
  onlineUsers (resume E t w).2 = onlineUsers w ∧ rooms (resume E t w).2 = rooms w.
Proof.
  intros H. destruct H as [a|e|R e k He Hk|R q k Hk]; simpl;
    try (split; [by constructor|done]).
  - destruct (presence_free_settle (k (effect e w).1) (effect e w).2 (Hk _))
      as (? & -> & ->).
    split; [done|]. by apply effect_reads_presence.
  - destruct (presence_free_settle (k (exec E q w).1) (exec E q w).2 (Hk _))
      as (? & -> & ->).
    split; [done|]. apply exec_presence.
Qed.

(** X10.  Only connecting and disconnecting change who is online: every
    other event ([send-message], [load-messages], [get-conversations],
    [typing], [stop-typing], [check-online-status]) leaves the presence
    registry and the rooms exactly as they were, whatever its payload
    and whatever the store does, and so does any interleaving of such
    handlers in flight. *)
Theorem presence_owned_by_lifecycle E :
  (∀ u s ev w,
     ev ≠ on_connection → ev ≠ on_disconnect →
     onlineUsers (run E (handler u s ev) w).2 = onlineUsers w ∧
     rooms (run E (handler u s ev) w).2 = rooms w) ∧
  (∀ sched pool w,
     Forall presence_free pool →
     onlineUsers (interleave E sched pool w).2 = onlineUsers w ∧
     rooms (interleave E sched pool w).2 = rooms w).
Proof.
  split.
  - intros u s ev w Hc Hd. by apply presence_free_run, presence_free_handler.
  - induction sched as [|i sched IH]; intros pool w Hpool; simpl; [done|].
    destruct (pool !! i) as [t|] eqn:Hi; [|by apply IH].
    assert (presence_free t) as Ht.
    { rewrite Forall_forall in Hpool. apply Hpool.
      by eapply list_elem_of_lookup_2. }
    destruct (presence_free_resume E t w Ht) as (Ht' & <- & <-).
    apply IH. by apply Forall_insert.
Qed.

Lemma presence_owned_by_lifecycle_witness :
  onlineUsers (run env_down (handler "A" "s1"
                 (on_send_message (Some (mkSendPayload (Some "B") (Some "hi")))))
                world_online).2
    = onlineUsers world_online ∧
  rooms (run env_down (handler "A" "s1"
           (on_send_message (Some (mkSendPayload (Some "B") (Some "hi")))))
          world_online).2
    = rooms world_online.
Proof.
  apply (proj1 (presence_owned_by_lifecycle env_down)); discriminate.
Defined.

(** ** [get-conversations] and the conversations of the asker *)

(** X11.  [get-conversations] answers only a user who takes part in no
    conversation.  The handler makes one store call, changes nothing in
    the store, the registry and the rooms, and always returns.  When
    the call is let through and no stored conversation has the asker
    among its participants, the asking socket is sent one
    [conversations-loaded] with the empty list.  In every other case,
    that is when the call throws in the store or when some conversation
    matches and [populate] throws for want of a [User] model, the
    [catch] swallows the error and nothing is emitted.  So no
    conversation is ever listed to anyone. *)
Theorem get_conversations_answers_only_empty E w u sock :
  (run E (get_conversations u sock) w).1 = inr () ∧
  db (run E (get_conversations u sock) w).2 = db w ∧
  onlineUsers (run E (get_conversations u sock) w).2 = onlineUsers w ∧
  rooms (run E (get_conversations u sock) w).2 = rooms w ∧
  tick (run E (get_conversations u sock) w).2 = S (tick w) ∧
  outbox (run E (get_conversations u sock) w).2 =
    outbox w ++
    match fails E (tick w), conversations_of u (db w) with
    | None, [] => [mkEmission (to_socket sock) (conversations_loaded [])]
    | _, _ => []
    end ∧
  (∀ c, c ∈ conversations (db w) → u ∈ participants c →
        outbox (run E (get_conversations u sock) w).2 = outbox w).
Proof.
  rewrite get_conversations_run. simpl. repeat split.
  intros c Hc Hu.
  assert (c ∈ conversations_of u (db w)) as Hin by by apply list_elem_of_filter.
  destruct (fails E (tick w)), (conversations_of u (db w));
    rewrite ?app_nil_r; try done.
  by apply elem_of_nil in Hin.
Qed.

(** A user who takes part in a stored conversation does so for good. *)
Lemma grows_conversations_of s s' v :
  grows s s' → conversations_of v s ≠ [] → conversations_of v s' ≠ [].
Proof.
  intros (_ & [k Hk] & _) Hne.
  destruct (conversations_of v s) as [|c l] eqn:Hc; [done|]. clear Hne.
  assert (c ∈ conversations_of v s) as Hin by (rewrite Hc; apply list_elem_of_here).
  apply list_elem_of_filter in Hin as [Hv Hin].
  assert (identity_of c ∈ identity_of <$> conversations s') as Hid.
  { rewrite Hk. apply elem_of_app. left. by apply list_elem_of_fmap_2. }
  apply list_elem_of_fmap in Hid as (c' & Heq & Hin').
  assert (c' ∈ conversations_of v s') as Hc'.
  { apply list_elem_of_filter. split; [|done].
    unfold identity_of in Heq. by injection Heq as _ <- _. }
  intros Hnil. rewrite Hnil in Hc'. by apply elem_of_nil in Hc'.
Qed.

Lemma run_events_grows E evs w : grows (db w) (db (run_events E evs w)).
Proof.
  revert w; induction evs as [|[[u s] ev] evs IH]; intros w; simpl;
    [apply grows_refl|].
  eapply grows_trans; [apply (run_grows E (handler u s ev) w)|apply IH].
Qed.

(** ** A sent message in the history *)

(** After a send that went through, the pair has a conversation and its
    history is the former history followed by the new message. *)
Lemma send_history E w w' u sock r txt :
  r ≠ "" → txt ≠ "" →
  ids_allocated (db w) →
  run E (send_message_body u sock (Some r) (Some txt)) w = (inr (), w') →
  ∃ c' m,
    findOne u r (db w') = Some c' ∧
    conversation_messages (c_id c') (db w') = pair_messages u r (db w) ++ [m] ∧
    messages (db w') = messages (db w) ++ [m] ∧
    lastMessage c' = Some (m_id m) ∧
    (next_oid (db w) ≤ m_id m)%nat ∧
    sender m = u ∧ text m = txt ∧
    (∀ c, findOne u r (db w) = Some c →
          c_id c' = c_id c ∧ m_createdAt m = now E (S (tick w))).
Proof.
  intros Hr Ht Hids Hrun.
  pose proof Hrun as Hrun'.
  destruct (send_message_body_ok _ _ _ _ _ _ _ Hr Ht Hrun)
    as (c & cs & tm & ts & Hc & Hcs & Hms & _).
  simpl in *.
  set (mid := (next_oid (db w) + length cs)%nat) in *.
  exists (set_lastMessage (c_id c) (Some mid) ts c),
    (mkMessage mid (c_id c) u txt false tm tm).
  rewrite set_lastMessage_id. simpl.
  assert (findOne u r (db w') = Some (set_lastMessage (c_id c) (Some mid) ts c))
    as Hfind.
  { unfold findOne. rewrite Hcs, filter_all_of_saved, filter_app.
    destruct Hc as [[Hf ->]|(Hf & -> & _ & Hp & _)].
    - unfold findOne in Hf. rewrite filter_nil, app_nil_r.
      by destruct (filter (all_of u r) (conversations (db w))); inversion Hf.
    - rewrite (findOne_None_filter _ _ _ Hf), filter_cons_True; [done|].
      split; rewrite Hp; set_solver. }
  split; [exact Hfind|].
  split.
  { unfold conversation_messages, pair_messages. rewrite Hms, filter_app.
    rewrite filter_cons_True, filter_nil by done.
    destruct Hc as [[Hf ->]|(Hf & -> & Hid & _)]; rewrite Hf; [done|].
    rewrite Hid.
    pose proof (conversation_messages_fresh (db w) Hids) as Hnil.
    unfold conversation_messages in Hnil. by rewrite Hnil. }
  split; [exact Hms|].
  split; [unfold set_lastMessage; by rewrite decide_True|].
  split; [lia|]. split; [done|]. split; [done|].
  intros c0 Hc0. destruct Hc as [[Hf ->]|(Hf & _)]; [|congruence].
  assert (c0 = c) as -> by congruence. split; [done|].
  (* the message was created by the second store call *)
  unfold send_message_body in Hrun'. rewrite !truthy_ne in Hrun' by done.
  task_simpl_in Hrun'.
  next_call E (tick w) Hrun'; [discriminate|]. rewrite Hf in Hrun'. simpl in Hrun'.
  next_call E (S (tick w)) Hrun'; [discriminate|].
  next_call E (S (S (tick w))) Hrun'; [discriminate|].
  assert (messages (db w') =
          messages (db w) ++ [mkMessage (next_oid (db w)) (c_id c) u txt false
                                (now E (S (tick w))) (now E (S (tick w)))]) as Hms'.
  { destruct (truthy (onlineUsers w !! r)); simpl in Hrun'; by inversion Hrun'. }
  rewrite Hms in Hms'. apply app_inv_head in Hms'. by inversion Hms'.
Qed.

Lemma send_no_faults_run E w u sock r txt :
  no_faults E → r ≠ "" → txt ≠ "" →
  run E (send_message u sock (Some r) (Some txt)) w =
    (inr (), (run E (send_message u sock (Some r) (Some txt)) w).2) ∧
  run E (send_message_body u sock (Some r) (Some txt)) w =
    (inr (), (run E (send_message u sock (Some r) (Some txt)) w).2).
Proof.
  intros HE Hr Ht.
  pose proof (send_message_body_no_faults E w u sock r txt HE Hr Ht) as Hok.
  rewrite send_message_returns by done. simpl. split; [done|].
  destruct (run E (send_message_body u sock (Some r) (Some txt)) w) as [res k].
  simpl in *. by subst.
Qed.

(** X12.  Sending a message costs both parties their conversation
    list.  After a [send-message] that was handled to its end and went
    through, and whatever events are handled one after the other
    afterwards, a [get-conversations] of the sender, and likewise of
    the recipient, is never answered: the handler returns and emits
    nothing, whether or not the store can be reached. *)
Theorem get_conversations_silent_after_send E w u sock r txt evs v sock' :
  r ≠ "" → txt ≠ "" →
  (run E (send_message_body u sock (Some r) (Some txt)) w).1 = inr () →
  v = u ∨ v = r →
  let w1 := (run E (send_message u sock (Some r) (Some txt)) w).2 in
  let w2 := run_events E evs w1 in
  (run E (get_conversations v sock') w2).1 = inr () ∧
  outbox (run E (get_conversations v sock') w2).2 = outbox w2.
Proof.
  intros Hr Ht Hok Hv w1 w2.
  assert (conversations_of v (db w1) ≠ []) as Hne.
  { subst w1. rewrite send_message_returns by done. simpl.
    destruct (run E (send_message_body u sock (Some r) (Some txt)) w)
      as [res w'] eqn:Hrun.
    simpl in Hok; subst res; simpl.
    destruct (send_message_body_ok _ _ _ _ _ _ _ Hr Ht Hrun)
      as (c & cs & tm & ts & Hc & Hcs & _).
    simpl in Hcs.
    assert (c ∈ conversations (db w) ++ cs ∧ all_of u r c) as [Hin [Hpu Hpr]].
    { destruct Hc as [[Hf ->]|(Hf & -> & _ & Hp & _)].
      - unfold findOne in Hf. apply head_Some_elem_of in Hf.
        apply list_elem_of_filter in Hf as [Hall Hin].
        split; [apply elem_of_app; by left|done].
      - split; [apply elem_of_app; right; apply list_elem_of_here|].
        split; rewrite Hp; set_solver. }
    set (c' := set_lastMessage (c_id c) (Some (next_oid (db w) + length cs)%nat) ts c).
    assert (c' ∈ conversations_of v (db w')) as Hc'.
    { apply list_elem_of_filter. split.
      - unfold c'. rewrite set_lastMessage_participants.
        by destruct Hv as [-> | ->].
      - rewrite Hcs. by apply list_elem_of_fmap_2. }
    intros Hnil. rewrite Hnil in Hc'. by apply elem_of_nil in Hc'. }
  pose proof (grows_conversations_of _ _ v (run_events_grows E evs w1) Hne) as Hne2.
  fold w2 in Hne2. rewrite get_conversations_run. simpl. split; [done|].
  destruct (fails E (tick w2)), (conversations_of v (db w2));
    rewrite ?app_nil_r; done.
Qed.

(** A writes to B; B then loads the messages and asks for the
    conversation list: no list comes. *)
Lemma get_conversations_silent_after_send_witness :
  let w1 := (run env0 (send_message "A" "s1" (Some "B") (Some "hi")) world_online).2 in
  let w2 := run_events env0
              [("B", "s2", on_load_messages (Some (mkLoadPayload None (Some "A"))))]
              w1 in
  (run env0 (get_conversations "B" "s2") w2).1 = inr () ∧
  outbox (run env0 (get_conversations "B" "s2") w2).2 = outbox w2.
Proof.
  apply (get_conversations_silent_after_send env0 world_online "A" "s1" "B" "hi"
           [("B", "s2", on_load_messages (Some (mkLoadPayload None (Some "A"))))]
           "B" "s2").
  - discriminate.
  - discriminate.
  - vm_compute. reflexivity.
  - right. reflexivity.
Defined.

(** Appending a latest element commutes with the sort. *)
Lemma insert_by_snoc {A} (key : A → Z) x y (l : list A) :
  key x ≤ key y →
  insert_by key x (l ++ [y]) = insert_by key x l ++ [y].
Proof.
  intros Hxy. induction l as [|z l IH]; simpl.
  - by rewrite (proj2 (Z.leb_le _ _) Hxy).
  - destruct (key x <=? key z); [done|]. by rewrite IH.
Qed.

Lemma sort_by_snoc {A} (key : A → Z) y (l : list A) :
  Forall (λ x, key x ≤ key y) l →
  sort_by key (l ++ [y]) = sort_by key l ++ [y].
Proof.
  induction 1 as [|x l Hx _ IH]; [done|].
  change (insert_by key x (sort_by key (l ++ [y])) =
          insert_by key x (sort_by key l) ++ [y]).
  by rewrite IH, insert_by_snoc.
Qed.

(** X13.  A message sent is a message kept.  Take a [send-message]
    handled to its end with no other handler in flight and with a store
    that answers, in a conversation that held fewer than 100 messages.
    A [load-messages] of the recipient for the sender (and likewise of
    the sender for the recipient) handled next returns what the same
    request returned before the send, together with the new message
    and nothing else, in ascending creation order, whether or not the
    recipient was online at the time; when the new message is no older
    than the former ones, the answer is the former answer followed by
    the new message. *)
Theorem sent_message_is_loaded E w u sock r txt v v' sock' :
  no_faults E → u ≠ "" → r ≠ "" → txt ≠ "" →
  ids_allocated (db w) →
  (length (pair_messages u r (db w)) < 100)%nat →
  (v = r ∧ v' = u) ∨ (v = u ∧ v' = r) →
  let w' := (run E (send_message u sock (Some r) (Some txt)) w).2 in
  ∃ former cid0 msgs cid m,
    outbox (run E (load_messages v sock' None (Some v')) w).2 =
      outbox w ++ [mkEmission (to_socket sock') (messages_loaded former cid0)] ∧
    outbox (run E (load_messages v sock' None (Some v')) w').2 =
      outbox w' ++ [mkEmission (to_socket sock') (messages_loaded msgs (Some cid))] ∧
    messages (db w') = messages (db w) ++ [m] ∧
    sender m = u ∧ text m = txt ∧ conversationId m = cid ∧
    msgs ≡ₚ former ++ [m] ∧
    ascending msgs ∧
    (Forall (λ x, m_createdAt x ≤ m_createdAt m) former → msgs = former ++ [m]).
Proof.
  intros HE Hu Hr Ht Hids Hlen Hv w'.
  destruct (send_no_faults_run E w u sock r txt HE Hr Ht) as [_ Hrun].
  fold w' in Hrun.
  destruct (send_history E w w' u sock r txt Hr Ht Hids Hrun)
    as (c' & m & Hfind & Hhist & Hms & _ & _ & Hsender & Htext & _).
  assert (∀ k, resolve v None (Some v') (db k) = findOne u r (db k)) as Hres.
  { intros k. unfold resolve.
    destruct Hv as [[-> ->]|[-> ->]]; rewrite truthy_ne by done;
      [by rewrite findOne_comm|done]. }
  (* the answer before the send *)
  assert (∃ cid0,
            outbox (run E (load_messages v sock' None (Some v')) w).2 =
              outbox w ++
              [mkEmission (to_socket sock')
                 (messages_loaded (sort_by m_createdAt (pair_messages u r (db w)))
                    cid0)]) as [cid0 Hbefore].
  { unfold pair_messages in *.
    destruct (findOne u r (db w)) as [c|] eqn:Hf.
    - exists (Some (c_id c)).
      destruct (load_messages_resolved E w v sock' None (Some v') c HE)
        as (_ & _ & ->); [by rewrite Hres|].
      rewrite find_messages_window, take_ge; [done|].
      rewrite length_sort_by. lia.
    - exists None.
      destruct (load_messages_unresolved E w v sock' None (Some v') (HE _))
        as (_ & _ & ->); [by rewrite Hres|done]. }
  (* the answer after it *)
  destruct (load_messages_resolved E w' v sock' None (Some v') c' HE)
    as (_ & _ & Hafter); [by rewrite Hres|].
  assert (find_messages (c_id c') (db w') =
          sort_by m_createdAt (pair_messages u r (db w) ++ [m])) as Hfm.
  { rewrite find_messages_window, Hhist. apply take_ge.
    rewrite length_sort_by, length_app. simpl. lia. }
  rewrite Hfm in Hafter.
  assert (conversationId m = c_id c') as Hconv.
  { assert (m ∈ conversation_messages (c_id c') (db w')) as Hm
      by (rewrite Hhist; apply elem_of_app; right; apply list_elem_of_here).
    by apply list_elem_of_filter in Hm as [? _]. }
  exists (sort_by m_createdAt (pair_messages u r (db w))), cid0,
    (sort_by m_createdAt (pair_messages u r (db w) ++ [m])), (c_id c'), m.
  split; [exact Hbefore|]. split; [exact Hafter|]. split; [exact Hms|].
  split; [done|]. split; [done|]. split; [done|].
  split; [by rewrite !sort_by_perm|].
  split; [apply (sort_by_sorted m_createdAt)|].
  intros Hclock. apply sort_by_snoc. by rewrite sort_by_perm in Hclock.
Qed.

Lemma sent_message_is_loaded_witness :
  let w' := (run env0 (send_message "A" "s1" (Some "B") (Some "again"))
               world_chat).2 in
  ∃ former cid0 msgs cid m,
    outbox (run env0 (load_messages "B" "s2" None (Some "A")) world_chat).2 =
      outbox world_chat ++
      [mkEmission (to_socket "s2") (messages_loaded former cid0)] ∧
    outbox (run env0 (load_messages "B" "s2" None (Some "A")) w').2 =
      outbox w' ++ [mkEmission (to_socket "s2") (messages_loaded msgs (Some cid))] ∧
    messages (db w') = messages (db world_chat) ++ [m] ∧
    sender m = "A" ∧ text m = "again" ∧ conversationId m = cid ∧
    msgs ≡ₚ former ++ [m] ∧
    ascending msgs ∧
    (Forall (λ x, m_createdAt x ≤ m_createdAt m) former → msgs = former ++ [m]).
Proof.
  apply (sent_message_is_loaded env0 world_chat "A" "s1" "B" "again" "B" "A" "s2").
  - exact no_faults_env0.
  - discriminate.
  - discriminate.
  - discriminate.
  - split; apply (bool_decide_unpack _); vm_compute; exact I.
  - vm_compute. lia.
  - left. split; reflexivity.
Defined.

(** X14.  A conversation shows its first 100 messages for good: once it
    holds 100 messages, a message sent later (at a time after the
    creation times of those it holds) is stored, but [load-messages]
    answers either participant exactly what it answered before the
    send. *)
Theorem full_conversation_hides_new_messages E w u sock r txt v v' sock' :
  no_faults E → u ≠ "" → r ≠ "" → txt ≠ "" →
  ids_allocated (db w) →
  (100 ≤ length (pair_messages u r (db w)))%nat →
  Forall (λ m, m_createdAt m < now E (S (tick w))) (pair_messages u r (db w)) →
  (v = r ∧ v' = u) ∨ (v = u ∧ v' = r) →
  let w' := (run E (send_message u sock (Some r) (Some txt)) w).2 in
  ∃ msgs cid m,
    messages (db w') = messages (db w) ++ [m] ∧ sender m = u ∧ text m = txt ∧
    outbox (run E (load_messages v sock' None (Some v')) w).2 =
      outbox w ++ [mkEmission (to_socket sock') (messages_loaded msgs cid)] ∧
    outbox (run E (load_messages v sock' None (Some v')) w').2 =
      outbox w' ++ [mkEmission (to_socket sock') (messages_loaded msgs cid)].
Proof.
  intros HE Hu Hr Ht Hids Hlen Hclock Hv w'.
  destruct (send_no_faults_run E w u sock r txt HE Hr Ht) as [_ Hrun].
  fold w' in Hrun.
  destruct (send_history E w w' u sock r txt Hr Ht Hids Hrun)
    as (c' & m & Hfind & Hhist & Hms & _ & _ & Hsender & Htext & Hsame).
  destruct (findOne u r (db w)) as [c|] eqn:Hf; cycle 1.
  { unfold pair_messages in Hlen. rewrite Hf in Hlen. simpl in Hlen. lia. }
  destruct (Hsame c eq_refl) as [Hid Htime].
  assert (∀ k c0, findOne u r (db k) = Some c0 →
            resolve v None (Some v') (db k) = Some c0) as Hres.
  { intros k c0 Hk. unfold resolve.
    destruct Hv as [[-> ->]|[-> ->]]; rewrite truthy_ne by done;
      [by rewrite findOne_comm|done]. }
  destruct (load_messages_resolved E w v sock' None (Some v') c HE (Hres _ _ Hf))
    as (_ & _ & Hout).
  destruct (load_messages_resolved E w' v sock' None (Some v') c' HE (Hres _ _ Hfind))
    as (_ & _ & Hout').
  assert (pair_messages u r (db w) = conversation_messages (c_id c) (db w)) as Hpm
    by (unfold pair_messages; by rewrite Hf).
  rewrite Hpm in Hhist, Hclock, Hlen.
  assert (find_messages (c_id c') (db w') = find_messages (c_id c) (db w)) as Heq.
  { rewrite !find_messages_window, Hhist.
    rewrite sort_by_snoc
      by (rewrite Htime; eapply Forall_impl; [exact Hclock|]; simpl; lia).
    apply take_app_le. by rewrite length_sort_by. }
  exists (find_messages (c_id c) (db w)), (Some (c_id c)), m.
  repeat split; auto. by rewrite Hout', Heq, Hid.
Qed.

Lemma full_conversation_witness :
  let w' := (run env0 (send_message "A" "s1" (Some "B") (Some "late"))
               world100).2 in
  ∃ msgs cid m,
    messages (db w') = messages (db world100) ++ [m] ∧
    sender m = "A" ∧ text m = "late" ∧
    outbox (run env0 (load_messages "B" "s2" None (Some "A")) world100).2 =
      outbox world100 ++ [mkEmission (to_socket "s2") (messages_loaded msgs cid)] ∧
    outbox (run env0 (load_messages "B" "s2" None (Some "A")) w').2 =
      outbox w' ++ [mkEmission (to_socket "s2") (messages_loaded msgs cid)].
Proof.
  apply (full_conversation_hides_new_messages env0 world100
           "A" "s1" "B" "late" "B" "A" "s2").
  - exact no_faults_env0.
  - discriminate.
  - discriminate.
  - discriminate.
  - split; apply (bool_decide_unpack _); vm_compute; exact I.
  - vm_compute. lia.
  - apply (bool_decide_unpack _). vm_compute. exact I.
  - left. split; reflexivity.
Defined.

(** ** Who may read a conversation *)

(** X15.  [load-messages] with a [conversationId] does not look at who
    asks: when the store answers and the id designates a stored
    conversation, any user, participant or not, is sent the messages of
    that conversation, and a [recipientId] given along is ignored. *)
Theorem load_by_id_ignores_asker E w u sock id rid c :
  no_faults E →
  findById id (db w) = Some c →
  outbox (run E (load_messages u sock (Some id) rid) w).2 =
    outbox w ++
    [mkEmission (to_socket sock)
       (messages_loaded (take 100 (sort_by m_createdAt (conversation_messages id (db w))))
          (Some id))].
Proof.
  intros HE Hc.
  destruct (load_messages_resolved E w u sock (Some id) rid c HE Hc) as (_ & _ & ->).
  by destruct (findById_id _ _ _ Hc) as [-> _].
Qed.

(** A third user reads the conversation of A and B. *)
Lemma load_by_id_ignores_asker_witness :
  ("C" ∉ participants (mkConversation 0 ["A"; "B"] (Some 1%nat) 1 3)) ∧
  outbox (run env0 (load_messages "C" "s3" (Some 0%nat) (Some "nobody")) world_chat).2 =
    outbox world_chat ++
    [mkEmission (to_socket "s3")
       (messages_loaded
          (take 100 (sort_by m_createdAt (conversation_messages 0 (db world_chat))))
          (Some 0%nat))].
Proof.
  split; [apply (bool_decide_unpack _); vm_compute; exact I|].
  apply (load_by_id_ignores_asker env0 world_chat "C" "s3" 0%nat (Some "nobody")
           (mkConversation 0 ["A"; "B"] (Some 1%nat) 1 3)).
  - exact no_faults_env0.
  - vm_compute. reflexivity.
Defined.

(** ** A message to oneself *)

(** X16.  The lookup [{ participants: { $all: [u, u] } }] matches every
    conversation [u] takes part in.  So a message a user sends to
    themselves, when they already take part in some conversation, makes
    no conversation of its own: it is stored in the first conversation
    they take part in, whoever the other participant is, and becomes its
    last message. *)
Theorem self_message_joins_existing_conversation E w u sock txt c :
  u ≠ "" → txt ≠ "" →
  head (filter (λ d, u ∈ participants d) (conversations (db w))) = Some c →
  (run E (send_message_body u sock (Some u) (Some txt)) w).1 = inr () →
  let w' := (run E (send_message u sock (Some u) (Some txt)) w).2 in
  ∃ m,
    messages (db w') = messages (db w) ++ [m] ∧
    conversationId m = c_id c ∧ sender m = u ∧ text m = txt ∧
    c_id <$> conversations (db w') = c_id <$> conversations (db w) ∧
    ∃ c', c' ∈ conversations (db w') ∧ c_id c' = c_id c ∧
          participants c' = participants c ∧ lastMessage c' = Some (m_id m).
Proof.
  intros Hu Ht Hc Hok. rewrite send_message_returns by done. simpl.
  destruct (run E (send_message_body u sock (Some u) (Some txt)) w)
    as [res w'] eqn:Hrun.
  simpl in Hok; subst res; simpl.
  assert (findOne u u (db w) = Some c) as Hf.
  { unfold findOne. rewrite <- Hc. f_equal. apply list_filter_iff.
    intros d. unfold all_of. tauto. }
  destruct (send_message_body_ok _ _ _ _ _ _ _ Hu Ht Hrun)
    as (c0 & cs & tm & ts & Hc0 & Hcs & Hms & _).
  simpl in *. destruct Hc0 as [[Hf0 ->]|(Hf0 & _)]; [|congruence].
  assert (c0 = c) as -> by congruence.
  rewrite app_nil_r in Hcs. rewrite Nat.add_0_r in *.
  eexists. split; [exact Hms|]. simpl. repeat split; auto.
  - rewrite Hcs, <- list_fmap_compose. apply list_fmap_ext.
    intros i d _. simpl. apply set_lastMessage_id.
  - exists (set_lastMessage (c_id c) (Some (next_oid (db w))) ts c).
    rewrite set_lastMessage_id, set_lastMessage_participants.
    split; [|split; [done|split; [done|]]].
    + rewrite Hcs. apply list_elem_of_fmap_2. by eapply findOne_elem_of.
    + unfold set_lastMessage. by rewrite decide_True.
Qed.

(** A's note to self lands in the conversation of A and B. *)
Lemma self_message_witness :
  let w' := (run env0 (send_message "A" "s1" (Some "A") (Some "note"))
               world_chat).2 in
  ∃ m,
    messages (db w') = messages (db world_chat) ++ [m] ∧
    conversationId m = c_id (mkConversation 0 ["A"; "B"] (Some 1%nat) 1 3) ∧
    sender m = "A" ∧ text m = "note" ∧
    c_id <$> conversations (db w') = c_id <$> conversations (db world_chat) ∧
    ∃ c', c' ∈ conversations (db w') ∧
          c_id c' = c_id (mkConversation 0 ["A"; "B"] (Some 1%nat) 1 3) ∧
          participants c' = participants (mkConversation 0 ["A"; "B"] (Some 1%nat) 1 3) ∧
          lastMessage c' = Some (m_id m).
Proof.
  apply (self_message_joins_existing_conversation env0 world_chat "A" "s1" "note").
  - discriminate.
  - discriminate.
  - vm_compute. reflexivity.
  - vm_compute. reflexivity.
Defined.

(** ** Delivery follows the registry *)

(** X17.  Of several connections of one user, only the latest receives:
    after [r] connected on [s1] and then on [s2], a send to [r] that
    goes through emits [message-sent] to the sender and
    [receive-message] to [s2], and nothing to [s1]. *)
Theorem delivery_to_latest_connection E w u sock r s1 s2 txt :
  r ≠ "" → txt ≠ "" → s2 ≠ "" →
  let w2 := run_all E [connection r s1; connection r s2] w in
  (run E (send_message_body u sock (Some r) (Some txt)) w2).1 = inr () →
  ∃ mid cid tm,
    outbox (run E (send_message u sock (Some r) (Some txt)) w2).2 =
      outbox w2 ++
      [mkEmission (to_socket sock) (message_sent mid cid tm);
       mkEmission (io_to s2) (receive_message u txt mid cid tm)].
Proof.
  intros Hr Ht Hs2 w2 Hok. rewrite send_message_returns by done. simpl.
  destruct (run E (send_message_body u sock (Some r) (Some txt)) w2)
    as [res w'] eqn:Hrun.
  simpl in Hok; subst res; simpl.
  destruct (send_message_body_ok _ _ _ _ _ _ _ Hr Ht Hrun)
    as (c & cs & tm & ts & _ & _ & _ & _ & _ & _ & Hout).
  simpl in Hout. rewrite lookup_insert_eq, truthy_ne in Hout by done.
  by do 3 eexists.
Qed.

Lemma delivery_to_latest_connection_witness :
  ∃ mid cid tm,
    outbox (run env0 (send_message "A" "s1" (Some "B") (Some "hi"))
              (run_all env0 [connection "B" "s2"; connection "B" "s4"] world0)).2 =
      outbox (run_all env0 [connection "B" "s2"; connection "B" "s4"] world0) ++
      [mkEmission (to_socket "s1") (message_sent mid cid tm);
       mkEmission (io_to "s4") (receive_message "A" "hi" mid cid tm)].
Proof.
  apply (delivery_to_latest_connection env0 world0 "A" "s1" "B" "s2" "s4" "hi").
  - discriminate.
  - discriminate.
  - discriminate.
  - vm_compute. reflexivity.
Defined.

(** X18.  After [r] connected on [s1], then on [s2], and [s1] then
    disconnected, a send to [r] that goes through is stored and
    confirmed to the sender, but no [receive-message] is emitted: the
    registry has no entry for [r], although the connection on [s2] was
    never closed. *)
Theorem no_delivery_after_superseded_disconnect E w u sock r s1 s2 txt :
  r ≠ "" → txt ≠ "" →
  let w3 := run_all E [connection r s1; connection r s2; disconnect r s1] w in
  (run E (send_message_body u sock (Some r) (Some txt)) w3).1 = inr () →
  ∃ m cid,
    messages (db (run E (send_message u sock (Some r) (Some txt)) w3).2) =
      messages (db w3) ++ [m] ∧
    text m = txt ∧
    outbox (run E (send_message u sock (Some r) (Some txt)) w3).2 =
      outbox w3 ++
      [mkEmission (to_socket sock) (message_sent (m_id m) cid (m_createdAt m))].
Proof.
  intros Hr Ht w3 Hok. rewrite send_message_returns by done. simpl.
  destruct (run E (send_message_body u sock (Some r) (Some txt)) w3)
    as [res w'] eqn:Hrun.
  simpl in Hok; subst res; simpl.
  destruct (send_message_body_ok _ _ _ _ _ _ _ Hr Ht Hrun)
    as (c & cs & tm & ts & _ & _ & Hms & _ & _ & _ & Hout).
  simpl in Hout, Hms. rewrite lookup_delete_eq in Hout. simpl in Hout.
  eexists _, _. split; [exact Hms|]. split; [done|]. exact Hout.
Qed.

Lemma no_delivery_after_superseded_disconnect_witness :
  ∃ m cid,
    messages (db (run env0 (send_message "A" "s1" (Some "B") (Some "hi"))
                    (run_all env0 [connection "B" "s2"; connection "B" "s4";
                                   disconnect "B" "s2"] world0)).2) =
      messages (db (run_all env0 [connection "B" "s2"; connection "B" "s4";
                                  disconnect "B" "s2"] world0)) ++ [m] ∧
    text m = "hi" ∧
    outbox (run env0 (send_message "A" "s1" (Some "B") (Some "hi"))
              (run_all env0 [connection "B" "s2"; connection "B" "s4";
                             disconnect "B" "s2"] world0)).2 =
      outbox (run_all env0 [connection "B" "s2"; connection "B" "s4";
                            disconnect "B" "s2"] world0) ++
      [mkEmission (to_socket "s1") (message_sent (m_id m) cid (m_createdAt m))].
Proof.
  apply (no_delivery_after_superseded_disconnect env0 world0 "A" "s1" "B" "s2" "s4" "hi").
  - discriminate.
  - discriminate.
  - vm_compute. reflexivity.
Defined.

(** ** [load-messages] always answers *)

Lemma find_messages_conversation cid s m :
  m ∈ find_messages cid s → conversationId m = cid.
Proof.
  rewrite find_messages_window. intros Hm.
  apply (subseteq_take 100) in Hm. rewrite sort_by_perm in Hm.
  by apply list_elem_of_filter in Hm as [? _].
Qed.

(** X19.  Called with a payload object, whatever its fields and
    whatever the store does, the [load-messages] listener returns,
    sends the asking socket exactly one event and writes nothing to the
    store.  The event is [messages-error] with its fixed text, or
    [messages-loaded] with at most 100 messages in ascending creation
    order, all of them messages of the one conversation the answer
    names.  Called with no payload ([undefined] or [null]), the
    listener throws at the destructuring of its parameter, which is
    outside its [try]: the error escapes, no event is sent and nothing
    has changed. *)
Theorem load_messages_answers_once E w u sock payload :
  match payload with
  | Some p =>
      ∃ ev,
        (run E (handler u sock (on_load_messages payload)) w).1 = inr () ∧
        outbox (run E (handler u sock (on_load_messages payload)) w).2 =
          outbox w ++ [mkEmission (to_socket sock) ev] ∧
        db (run E (handler u sock (on_load_messages payload)) w).2 = db w ∧
        (ev = messages_error "Failed to load messages" ∨
         ∃ msgs c,
           ev = messages_loaded msgs c ∧
           (length msgs ≤ 100)%nat ∧ ascending msgs ∧
           ∀ m, m ∈ msgs → c = Some (conversationId m))
  | None =>
      run E (handler u sock (on_load_messages payload)) w = (inl "TypeError", w)
  end.
Proof.
  destruct payload as [[cid rid]|]; [|reflexivity].
  change (handler u sock (on_load_messages (Some (mkLoadPayload cid rid))))
    with (load_messages u sock cid rid).
  assert (∀ c, (length (find_messages (c_id c) (db w)) ≤ 100)%nat ∧
               ascending (find_messages (c_id c) (db w)) ∧
               ∀ m, m ∈ find_messages (c_id c) (db w) →
                    Some (c_id c) = Some (conversationId m)) as Hfound.
  { intros c. split; [rewrite length_find_messages; lia|].
    split; [apply find_messages_ascending|].
    intros m Hm. by rewrite (find_messages_conversation _ _ _ Hm). }
  destruct (load_messages_reads_only E w u sock cid rid) as [Hdb _].
  destruct (handlers_never_reject E w u sock) as (_ & Hret & _).
  specialize (Hret cid rid). revert Hdb Hret.
  unfold load_messages, load_messages_body.
  match goal with
  | |- context [run E ?t w] => destruct (run E t w) as [res w'] eqn:H
  end.
  simpl. intros Hdb ->. task_simpl_in H.
  enough (∃ ev, outbox w' = outbox w ++ [mkEmission (to_socket sock) ev] ∧
                (ev = messages_error "Failed to load messages" ∨
                 ∃ msgs c, ev = messages_loaded msgs c ∧ (length msgs ≤ 100)%nat ∧
                           ascending msgs ∧
                           ∀ m, m ∈ msgs → c = Some (conversationId m)))
    as (ev & ? & ?) by (by exists ev).
  assert (∃ msgs c, messages_loaded [] None = messages_loaded msgs c ∧
                    (length msgs ≤ 100)%nat ∧ ascending msgs ∧
                    ∀ m, m ∈ msgs → c = Some (conversationId m)) as Hempty.
  { exists [], None. repeat split; [simpl; lia|constructor|].
    intros m Hm. by apply elem_of_nil in Hm. }
  destruct cid as [id|]; simpl in H.
  - next_call E (tick w) H.
    { inversion H; subst; simpl. eexists. split; [done|by left]. }
    destruct (findById id (db w)) as [c|]; simpl in H.
    + next_call E (S (tick w)) H; inversion H; subst; simpl.
      * eexists. split; [done|by left].
      * eexists. split; [done|]. right. do 2 eexists. split; [done|].
        exact (Hfound c).
    + inversion H; subst; simpl. eexists. split; [done|by right].
  - destruct (truthy rid) as [r|]; simpl in H.
    + next_call E (tick w) H.
      { inversion H; subst; simpl. eexists. split; [done|by left]. }
      destruct (findOne u r (db w)) as [c|]; simpl in H.
      * next_call E (S (tick w)) H; inversion H; subst; simpl.
        -- eexists. split; [done|by left].
        -- eexists. split; [done|]. right. do 2 eexists. split; [done|].
           exact (Hfound c).
      * inversion H; subst; simpl. eexists. split; [done|by right].
    + inversion H; subst; simpl. eexists. split; [done|by right].
Qed.

(** ** Events without a payload *)

